(** * Multi-agent orchestrator blueprint: model and properties

    A shallow embedding of
    [blueprints/python/multi-agent-orchestrator/agent_executor.py]:
    the [SubAgent] wrapper (lazy, memoized client), the [OrchestratorExecutor]
    facade ([execute]) and its four orchestration patterns (sequential,
    parallel, conditional, iterative).

    The coroutines are modelled in a state-and-exception monad over a
    [world] that holds the event queue, the [SubAgent] objects of
    [self.sub_agents] (addressed by their dictionary key, so that the
    mutation of [_client] is shared by every later use), the number of
    [A2AClient] objects constructed so far and the log of the calls made
    through those clients.  The [a2a] client library and the remote agents
    are external: their behaviour is a parameter ([Env]). *)

From Stdlib Require Import String Ascii List Arith Lia Bool Permutation.
From Stdlib Require Import DecimalString.
Import ListNotations.
Open Scope string_scope.

(** ** Python values used by the module *)

Module Py.

(** The newline character of the f-strings. *)
Definition nl : string := String "010"%char EmptyString.

(** [str(n)] for a non-negative integer. *)
Definition str_of_nat (n : nat) : string :=
  NilEmpty.string_of_uint (Nat.to_uint n).

(** [sep.join(l)]. *)
Definition join (sep : string) (l : list string) : string :=
  String.concat sep l.

(** A [dict] with string keys, in insertion order. *)
Definition dict (V : Type) : Type := list (string * V).

Fixpoint dict_get {V} (k : string) (d : dict V) : option V :=
  match d with
  | [] => None
  | (k', v) :: d' => if String.eqb k k' then Some v else dict_get k d'
  end.

(** [d[k] = v]: an existing key keeps its position, a new one goes last. *)
Fixpoint dict_set {V} (k : string) (v : V) (d : dict V) : dict V :=
  match d with
  | [] => [(k, v)]
  | (k', v') :: d' =>
      if String.eqb k k' then (k', v) :: d' else (k', v') :: dict_set k v d'
  end.

Definition dict_keys {V} (d : dict V) : list string := map fst d.

(** [k in d]. *)
Definition dict_contains {V} (k : string) (d : dict V) : bool :=
  match dict_get k d with Some _ => true | None => false end.

End Py.
Import Py.

(** ** Events and exceptions *)

(** Modelled from the spec: the status enumeration [ExecutionState] of the
    external [a2a] package (the data model's phases). *)
Inductive ExecutionState : Type :=
| THINKING | RUNNING | COMPLETED | FAILED | CANCELLED.

(** Modelled from the spec: the two event classes of the external [a2a]
    package.  [append] is [None] where the caller leaves the keyword out. *)
Inductive event : Type :=
| AgentExecutionStateEvent (state : ExecutionState) (description : string)
| AgentExecutionTextEvent (text : string) (append : option bool).

(** A terminal status event: COMPLETED, FAILED or CANCELLED. *)
Definition is_terminal (e : event) : bool :=
  match e with
  | AgentExecutionStateEvent COMPLETED _
  | AgentExecutionStateEvent FAILED _
  | AgentExecutionStateEvent CANCELLED _ => true
  | _ => false
  end.

Definition count_terminal (l : list event) : nat :=
  length (filter is_terminal l).

(** Exception objects, each with what [str(e)] and [repr(e)] render.
    [Exception], [UnboundLocalError] and [Raised] are instances of
    [Exception]; [Raised] is any such exception that comes out of the client
    library or of a lookup.  [Cancelled] is an [asyncio.CancelledError]: an
    instance of [BaseException] that is not an instance of [Exception].
    ([KeyboardInterrupt] and [SystemExit] stop the event loop itself and
    are not modelled.) *)
Inductive exn : Type :=
| Exception (msg : string)
| UnboundLocalError (var : string)
| Raised (str_e repr_e : string)
| Cancelled (str_e repr_e : string).

(** [isinstance(e, Exception)]. *)
Definition is_Exception (e : exn) : bool :=
  match e with
  | Cancelled _ _ => false
  | _ => true
  end.

(** An [A2AClient] object: its identity (the rank of its construction) and
    the URL it was built for. *)
Record A2AClient : Type := mkClient {
  client_id : nat;
  client_url : string
}.

(** The external world: the builtin [repr] on strings, the [A2AClient]
    constructor ([Some e]: it raises [e]) and the event stream of
    [client.execute_task(instruction)]: the events it yields, then either the
    end of the stream ([None]) or an exception. *)
Record Env : Type := mkEnv {
  repr_str : string -> string;
  A2AClient_init : string -> option exn;
  client_execute_task : A2AClient -> string -> list event * option exn
}.

Definition str_exn (e : exn) : string :=
  match e with
  | Exception msg => msg
  | UnboundLocalError var =>
      "cannot access local variable '" ++ var
        ++ "' where it is not associated with a value"
  | Raised s _ => s
  | Cancelled s _ => s
  end.

Definition repr_exn (env : Env) (e : exn) : string :=
  match e with
  | Exception msg => "Exception(" ++ repr_str env msg ++ ")"
  | UnboundLocalError _ =>
      "UnboundLocalError(" ++ repr_str env (str_exn e) ++ ")"
  | Raised _ r => r
  | Cancelled _ r => r
  end.

(** [KeyError(key)], the exception of a failed dictionary lookup: its
    [str] is [repr(key)]. *)
Definition KeyError (env : Env) (key : string) : exn :=
  Raised (repr_str env key) ("KeyError(" ++ repr_str env key ++ ")").

(** [f"{errors}"] for a list of exceptions. *)
Definition repr_list (env : Env) (l : list exn) : string :=
  "[" ++ join ", " (map (repr_exn env) l) ++ "]".

(** ** The SubAgent objects and the state of a run *)

Record SubAgent : Type := mkSubAgent {
  name : string;
  url : string;
  description : string;
  _client : option A2AClient;
  _card : option string
}.

(** [SubAgent.__init__]. *)
Definition SubAgent_init (name url : string) : SubAgent :=
  mkSubAgent name url "" None None.

Record world : Type := mkWorld {
  event_queue : list event;
  sub_agents : dict SubAgent;
  clients_made : nat;
  invocations : list (A2AClient * string)
}.

(** [OrchestratorExecutor.__init__]: one [SubAgent] per configured name. *)
Definition OrchestratorExecutor_init (sub_agent_urls : dict string)
  : dict SubAgent :=
  map (fun item => (fst item, SubAgent_init (fst item) (snd item)))
      sub_agent_urls.

(** The state in which a freshly built orchestrator receives a task. *)
Definition initial_world (sub_agent_urls : dict string) : world :=
  mkWorld [] (OrchestratorExecutor_init sub_agent_urls) 0 [].

(** ** The monad of the coroutines *)

Inductive outcome (A : Type) : Type :=
| Return (a : A)
| Raise (e : exn).
Arguments Return {A} a.
Arguments Raise {A} e.

Definition M (A : Type) : Type := world -> outcome A * world.

Definition ret {A} (a : A) : M A := fun w => (Return a, w).

Definition raise {A} (e : exn) : M A := fun w => (Raise e, w).

Definition bind {A B} (m : M A) (k : A -> M B) : M B :=
  fun w =>
    match m w with
    | (Return a, w') => k a w'
    | (Raise e, w') => (Raise e, w')
    end.

Notation "x <- m ;; k" := (bind m (fun x => k))
  (at level 61, m at next level, right associativity).
Notation "m ;; k" := (bind m (fun _ => k))
  (at level 61, right associativity).

(** [try: body  except Exception as e: handler(e)]: an exception that is
    not an instance of [Exception] is not caught. *)
Definition try_except {A} (body : M A) (handler : exn -> M A) : M A :=
  fun w =>
    match body w with
    | (Return a, w') => (Return a, w')
    | (Raise e, w') =>
        if is_Exception e then handler e w' else (Raise e, w')
    end.

(** [await event_queue.enqueue_event(e)]. *)
Definition enqueue_event (e : event) : M unit :=
  fun w =>
    (Return tt,
     mkWorld (event_queue w ++ [e]) (sub_agents w) (clients_made w)
             (invocations w)).

Fixpoint enqueue_all (l : list event) : M unit :=
  match l with
  | [] => ret tt
  | e :: l' => enqueue_event e ;; enqueue_all l'
  end.

(** ** The overridable helper methods of [OrchestratorExecutor]

    The orchestration patterns call their helpers through [self]; the
    blueprint asks its user to replace them.  The record lists these hooks,
    and [OrchestratorExecutor_methods] below holds the bodies of the
    source. *)

Record Methods : Type := mkMethods {
  build_instruction_for_agent : string -> string -> dict string -> string;
  select_agents_for_task : dict SubAgent -> string -> list string;
  should_stop_execution : list string -> bool;
  is_result_satisfactory : string -> bool;
  synthesize_results : dict string -> string
}.

(** "Simple example: just pass original message". *)
Definition _build_instruction_for_agent
  (agent_name original_message : string) (previous_results : dict string)
  : string :=
  original_message.

(** "Simple example: use all agents": [list(self.sub_agents.keys())]. *)
Definition _select_agents_for_task
  (self_sub_agents : dict SubAgent) (user_message : string) : list string :=
  dict_keys self_sub_agents.

(** "Example: Stop after first success": [len(results) >= 1]. *)
Definition _should_stop_execution (results : list string) : bool :=
  Nat.leb 1 (List.length results).

(** "Example: Always iterate max times". *)
Definition _is_result_satisfactory (result : string) : bool := false.

Definition _synthesize_results (results : dict string) : string :=
  "Orchestration completed. Agents executed: " ++ join ", " (dict_keys results).

Definition OrchestratorExecutor_methods : Methods :=
  mkMethods _build_instruction_for_agent _select_agents_for_task
            _should_stop_execution _is_result_satisfactory
            _synthesize_results.

Section Model.

Variable env : Env.
Variable self : Methods.

(** *** SubAgent *)

(** [self.sub_agents[agent_name]]. *)
Definition the_agent (agent_name : string) : M SubAgent :=
  fun w =>
    match dict_get agent_name (sub_agents w) with
    | Some a => (Return a, w)
    | None => (Raise (KeyError env agent_name), w)
    end.

(** [A2AClient(url)]: a new client object, unless the constructor raises. *)
Definition new_A2AClient (url : string) : M A2AClient :=
  fun w =>
    match A2AClient_init env url with
    | Some e => (Raise e, w)
    | None =>
        (Return (mkClient (clients_made w) url),
         mkWorld (event_queue w) (sub_agents w) (S (clients_made w))
                 (invocations w))
    end.

(** [agent._client = c] on the object stored under [agent_name]. *)
Definition set_client (agent_name : string) (c : A2AClient) : M unit :=
  fun w =>
    match dict_get agent_name (sub_agents w) with
    | Some a =>
        (Return tt,
         mkWorld (event_queue w)
                 (dict_set agent_name
                    (mkSubAgent (name a) (url a) (description a) (Some c)
                                (_card a))
                    (sub_agents w))
                 (clients_made w) (invocations w))
    | None => (Raise (KeyError env agent_name), w)
    end.

(** [SubAgent.get_client], on the agent stored under [agent_name]. *)
Definition get_client (agent_name : string) : M A2AClient :=
  a <- the_agent agent_name ;;
  match _client a with
  | None =>
      c <- new_A2AClient (url a) ;;
      set_client agent_name c ;;
      ret c
  | Some c => ret c
  end.

(** [async for event in client.execute_task(instruction):
       await event_queue.enqueue_event(event)]:
    the call is logged, the events the stream yields are forwarded, then
    the exception of the stream, if any, is raised. *)
Definition forward_events (client : A2AClient) (instruction : string)
  : M unit :=
  fun w =>
    let w1 := mkWorld (event_queue w) (sub_agents w) (clients_made w)
                      (invocations w ++ [(client, instruction)]) in
    let (events, error) := client_execute_task env client instruction in
    match enqueue_all events w1 with
    | (Return _, w2) =>
        match error with
        | None => (Return tt, w2)
        | Some e => (Raise e, w2)
        end
    | (Raise e, w2) => (Raise e, w2)
    end.

(** [SubAgent.execute_task]. *)
Definition execute_task (agent_name instruction : string) : M bool :=
  client <- get_client agent_name ;;
  forward_events client instruction ;;
  ret true.

(** *** Pattern 1: sequential execution *)

(** The [for agent_name, agent in self.sub_agents.items()] loop, with the
    [results] dictionary built so far. *)
Fixpoint sequential_loop (agent_names : list string) (user_message : string)
  (results : dict string) : M (dict string) :=
  match agent_names with
  | [] => ret results
  | agent_name :: rest =>
      agent <- the_agent agent_name ;;
      enqueue_event
        (AgentExecutionTextEvent
           (nl ++ "--- Delegating to " ++ name agent ++ " ---" ++ nl) None) ;;
      let instruction :=
        build_instruction_for_agent self agent_name user_message results in
      execute_task agent_name instruction ;;
      sequential_loop rest user_message
        (dict_set agent_name "completed" results)
  end.

Definition _sequential_orchestration (user_message : string) : M string :=
  fun w =>
    (results <- sequential_loop (dict_keys (sub_agents w)) user_message [] ;;
     let final_answer := synthesize_results self results in
     ret final_answer) w.

(** *** Pattern 2: parallel execution *)

(** One coroutine of [tasks] run to its end: its events are kept apart, to
    be merged into the queue with those of the other coroutines. *)
Definition run_task (task : string * string)
  : M (list event * outcome bool) :=
  fun w =>
    let w0 := mkWorld [] (sub_agents w) (clients_made w) (invocations w) in
    let (r, w1) := execute_task (fst task) (snd task) w0 in
    (Return (event_queue w1, r),
     mkWorld (event_queue w) (sub_agents w1) (clients_made w1)
             (invocations w1)).

Fixpoint run_tasks (tasks : list (string * string))
  : M (list (list event * outcome bool)) :=
  match tasks with
  | [] => ret []
  | task :: rest =>
      r <- run_task task ;;
      rs <- run_tasks rest ;;
      ret (r :: rs)
  end.

(** The order in which the event loop lets the coroutines enqueue: the
    schedule names, step by step, the coroutine whose next event goes
    into the queue; what is left when the schedule ends follows in task
    order. *)
Fixpoint set_nth {A} (i : nat) (x : A) (l : list A) : list A :=
  match l, i with
  | [], _ => []
  | _ :: l', O => x :: l'
  | y :: l', S i' => y :: set_nth i' x l'
  end.

Fixpoint interleave (schedule : list nat) (streams : list (list event))
  : list event :=
  match schedule with
  | [] => concat streams
  | i :: schedule' =>
      match nth_error streams i with
      | Some (e :: stream') =>
          e :: interleave schedule' (set_nth i stream' streams)
      | _ => interleave schedule' streams
      end
  end.

(** [asyncio.gather] over [tasks] with [return_exceptions=True]: every
    coroutine runs to its end; the result list has, in task order, the
    value each returned or the exception it raised (a [CancelledError]
    for a coroutine that ended in one). *)
Definition gather (schedule : list nat) (tasks : list (string * string))
  : M (list (outcome bool)) :=
  rs <- run_tasks tasks ;;
  enqueue_all (interleave schedule (map fst rs)) ;;
  ret (map snd rs).

(** [[r for r in results if isinstance(r, Exception)]]. *)
Fixpoint exceptions_of (results : list (outcome bool)) : list exn :=
  match results with
  | [] => []
  | Raise e :: rest =>
      if is_Exception e then e :: exceptions_of rest else exceptions_of rest
  | Return _ :: rest => exceptions_of rest
  end.

Definition parallel_tasks (agent_names : list string) (user_message : string)
  : list (string * string) :=
  map (fun agent_name =>
         (agent_name,
          user_message ++ " (handled by " ++ agent_name ++ ")"))
      agent_names.

Definition _parallel_orchestration (schedule : list nat)
  (user_message : string) : M string :=
  enqueue_event
    (AgentExecutionTextEvent
       ("Executing multiple agents in parallel..." ++ nl) None) ;;
  fun w =>
    (let tasks := parallel_tasks (dict_keys (sub_agents w)) user_message in
     results <- gather schedule tasks ;;
     let errors := exceptions_of results in
     match errors with
     | _ :: _ =>
         raise (Exception ("Some agents failed: " ++ repr_list env errors))
     | [] => ret "All agents completed successfully in parallel!"
     end) w.

(** *** Pattern 3: conditional execution *)

(** The [for agent_name in selected_agents] loop with its [continue] and
    [break]. *)
Fixpoint conditional_loop (selected_agents : list string)
  (user_message : string) (results : list string) : M (list string) :=
  match selected_agents with
  | [] => ret results
  | agent_name :: rest =>
      fun w =>
        if negb (dict_contains agent_name (sub_agents w))
        then conditional_loop rest user_message results w
        else
          (agent <- the_agent agent_name ;;
           enqueue_event
             (AgentExecutionTextEvent
                (nl ++ "--- Selected " ++ name agent ++ " for this task ---"
                    ++ nl) None) ;;
           execute_task agent_name user_message ;;
           let results' := (results ++ [agent_name])%list in
           if should_stop_execution self results'
           then ret results'
           else conditional_loop rest user_message results') w
  end.

Definition _conditional_orchestration (user_message : string) : M string :=
  fun w =>
    (let selected_agents :=
       select_agents_for_task self (sub_agents w) user_message in
     results <- conditional_loop selected_agents user_message [] ;;
     ret ("Executed agents: " ++ join ", " results)) w.

(** *** Pattern 4: iterative refinement *)

(** The [for iteration in range(max_iterations)] loop; [iteration] is the
    last value bound to the loop variable, if any. *)
Fixpoint iterative_loop (rounds : list nat) (current_result : string)
  (iteration : option nat) : M (option nat) :=
  match rounds with
  | [] => ret iteration
  | i :: rest =>
      enqueue_event
        (AgentExecutionTextEvent
           (nl ++ "--- Iteration " ++ str_of_nat (i + 1) ++ " ---" ++ nl)
           None) ;;
      enqueue_event (AgentExecutionTextEvent ("Generating..." ++ nl) None) ;;
      enqueue_event (AgentExecutionTextEvent ("Reviewing..." ++ nl) None) ;;
      if is_result_satisfactory self current_result
      then ret (Some i)
      else iterative_loop rest current_result (Some i)
  end.

Definition _iterative_orchestration (user_message : string) : M string :=
  let max_iterations := 3 in
  let current_result := user_message in
  iteration <- iterative_loop (seq 0 max_iterations) current_result None ;;
  match iteration with
  | Some i =>
      ret ("Completed after " ++ str_of_nat (i + 1) ++ " iterations")
  | None => raise (UnboundLocalError "iteration")
  end.

(** *** The facade *)

(** [OrchestratorExecutor.execute], for the pattern that
    [_orchestrate_task] runs. *)
Definition execute_with (orchestrate : string -> M string)
  (user_message : string) : M unit :=
  enqueue_event
    (AgentExecutionStateEvent THINKING
       "Analyzing task and planning agent coordination...") ;;
  try_except
    (result <- orchestrate user_message ;;
     enqueue_event (AgentExecutionTextEvent result None) ;;
     enqueue_event
       (AgentExecutionStateEvent COMPLETED
          "All sub-agents completed successfully!"))
    (fun e =>
       enqueue_event
         (AgentExecutionStateEvent FAILED
            ("Orchestration failed: " ++ str_exn e))).

(** "Example: Sequential execution". *)
Definition _orchestrate_task (user_message : string) : M string :=
  _sequential_orchestration user_message.

Definition execute (user_message : string) : M unit :=
  execute_with _orchestrate_task user_message.

(** [OrchestratorExecutor.cancel]. *)
Definition cancel : M unit :=
  enqueue_event
    (AgentExecutionStateEvent CANCELLED "Orchestration cancelled.").

End Model.

(** ** Vocabulary of the statements

    What a run adds to the state, and the events of the source by name. *)

(** The events that the calls [invs] forward into the queue. *)
Definition forwarded (env : Env) (invs : list (A2AClient * string))
  : list event :=
  concat (map (fun ci => fst (client_execute_task env (fst ci) (snd ci)))
              invs).

(** From [w] to [w'] the queue grew by [evs] and the call log by [invs],
    and [self.sub_agents] kept its names. *)
Definition extends (w w' : world) (evs : list event)
  (invs : list (A2AClient * string)) : Prop :=
  event_queue w' = (event_queue w ++ evs)%list
  /\ invocations w' = (invocations w ++ invs)%list
  /\ dict_keys (sub_agents w') = dict_keys (sub_agents w).

(** The text event that announces a delegation in the sequential pattern. *)
Definition delegating_event (a : SubAgent) : event :=
  AgentExecutionTextEvent
    (nl ++ "--- Delegating to " ++ name a ++ " ---" ++ nl) None.

(** The three status events of [execute]. *)
Definition thinking_event : event :=
  AgentExecutionStateEvent THINKING
    "Analyzing task and planning agent coordination...".

Definition completed_event : event :=
  AgentExecutionStateEvent COMPLETED "All sub-agents completed successfully!".

Definition failed_event (e : exn) : event :=
  AgentExecutionStateEvent FAILED
    ("Orchestration failed: " ++ str_exn e)%string.

(** The text event that announces a selected agent in the conditional
    pattern. *)
Definition selected_event (a : SubAgent) : event :=
  AgentExecutionTextEvent
    (nl ++ "--- Selected " ++ name a ++ " for this task ---" ++ nl)%string
    None.

(** The three text events of round [k] (counted from 1) of the iterative
    pattern: the round header, the generator step, the critic step. *)
Definition round_events (k : nat) : list event :=
  [AgentExecutionTextEvent
     (nl ++ "--- Iteration " ++ str_of_nat k ++ " ---" ++ nl)%string None;
   AgentExecutionTextEvent ("Generating..." ++ nl)%string None;
   AgentExecutionTextEvent ("Reviewing..." ++ nl)%string None].

(** The text event that opens the parallel pattern. *)
Definition parallel_event : event :=
  AgentExecutionTextEvent
    ("Executing multiple agents in parallel..." ++ nl)%string None.

(** No sub-agent call raises: neither the client constructor nor a stream. *)
Definition all_complete (env : Env) : Prop :=
  (forall u, A2AClient_init env u = None)
  /\ (forall c i, snd (client_execute_task env c i) = None).

(** The [results] dictionary after the agents [names] were recorded. *)
Definition record_completed (names : list string) (results : dict string)
  : dict string :=
  fold_left (fun d n => dict_set n "completed" d) names results.

(** The dictionary that maps each of [names] to ["completed"]. *)
Definition all_completed (names : list string) : dict string :=
  map (fun n => (n, "completed")) names.

(** ** The agent cards and the LLM-powered orchestrator *)

Section Cards.

Variable env : Env.

(** [await client.get_agent_card()]: the card of the remote agent, or the
    exception of the call.  An [AgentCard] is represented by its
    [description], the only attribute this module reads. *)
Variable get_agent_card : A2AClient -> outcome string.

(** [agent._card = card] on the object stored under [agent_name]. *)
Definition set_card (agent_name : string) (card : string) : M unit :=
  fun w =>
    match dict_get agent_name (sub_agents w) with
    | Some a =>
        (Return tt,
         mkWorld (event_queue w)
                 (dict_set agent_name
                    (mkSubAgent (name a) (url a) (description a) (_client a)
                                (Some card))
                    (sub_agents w))
                 (clients_made w) (invocations w))
    | None => (Raise (KeyError env agent_name), w)
    end.

(** [SubAgent.get_card], on the agent stored under [agent_name]. *)
Definition get_card (agent_name : string) : M string :=
  a <- the_agent env agent_name ;;
  match _card a with
  | None =>
      client <- get_client env agent_name ;;
      card <- (fun w => (get_agent_card client, w)) ;;
      set_card agent_name card ;;
      ret card
  | Some card => ret card
  end.

(** The [for name, agent in self.sub_agents.items()] loop of
    [_get_agent_descriptions]. *)
Fixpoint descriptions_loop (agent_names : list string)
  (descriptions : dict string) : M (dict string) :=
  match agent_names with
  | [] => ret descriptions
  | name :: rest =>
      card <- get_card name ;;
      descriptions_loop rest (dict_set name card descriptions)
  end.

(** [LLMOrchestratorExecutor._get_agent_descriptions]. *)
Definition _get_agent_descriptions : M (dict string) :=
  fun w => descriptions_loop (dict_keys (sub_agents w)) [] w.

(** [LLMOrchestratorExecutor.execute]. *)
Definition LLMOrchestratorExecutor_execute (user_message : string) : M unit :=
  agent_descriptions <- _get_agent_descriptions ;;
  enqueue_event
    (AgentExecutionTextEvent
       "LLM-based orchestration not yet implemented. See code for examples."
       None) ;;
  enqueue_event (AgentExecutionStateEvent COMPLETED "Done!").

(** [LLMOrchestratorExecutor.cancel]. *)
Definition LLMOrchestratorExecutor_cancel : M unit :=
  enqueue_event
    (AgentExecutionStateEvent CANCELLED "Orchestration cancelled.").

End Cards.

(** ** The pattern that [_orchestrate_task] runs

    The source runs the sequential pattern and lists the three others as
    alternatives to put in its place. *)

Inductive pattern : Type :=
| Sequential
| Parallel (schedule : list nat)
| Conditional
| Iterative.

Definition orchestrate_pattern (env : Env) (self : Methods) (p : pattern)
  (user_message : string) : M string :=
  match p with
  | Sequential => _sequential_orchestration env self user_message
  | Parallel schedule => _parallel_orchestration env schedule user_message
  | Conditional => _conditional_orchestration env self user_message
  | Iterative => _iterative_orchestration self user_message
  end.

(** The state after the tasks [msgs] were handled one after the other by
    the same executor, each by [execute] with the pattern given for it. *)
Definition after_runs (env : Env) (self : Methods)
  (runs : list (pattern * string)) (w : world) : world :=
  fold_left
    (fun w run =>
       snd (execute_with (orchestrate_pattern env self (fst run)) (snd run) w))
    runs w.

(** ** Vocabulary of the statements about clients and calls *)

(** The client that the agent stored under [n] holds, if any. *)
Definition client_of (w : world) (n : string) : option A2AClient :=
  match dict_get n (sub_agents w) with
  | Some a => _client a
  | None => None
  end.

(** What the coroutine [agent.execute_task(instruction, event_queue)] of
    [task] did in a run of the parallel pattern, read off the state [w']
    after the run: the events it forwarded and the entry it has in the
    result list of [asyncio.gather].  An agent that holds a client was
    called through it; an agent that holds none is one whose client could
    not be constructed. *)
Definition task_result (env : Env) (w' : world) (task : string * string)
  : list event * outcome bool :=
  match dict_get (fst task) (sub_agents w') with
  | None => ([], Raise (KeyError env (fst task)))
  | Some a =>
      match _client a with
      | Some c =>
          (fst (client_execute_task env c (snd task)),
           match snd (client_execute_task env c (snd task)) with
           | None => Return true
           | Some e => Raise e
           end)
      | None =>
          match A2AClient_init env (url a) with
          | Some e => ([], Raise e)
          | None => ([], Return true)
          end
      end
  end.

(** The call that the coroutine of [task] made: one, through the client its
    agent holds after the run, or none when the agent holds no client. *)
Definition task_call (w' : world) (task : string * string)
  : list (A2AClient * string) :=
  match client_of w' (fst task) with
  | Some c => [(c, snd task)]
  | None => []
  end.


(** The card that the agent stored under [n] holds, if any. *)
Definition card_of (w : world) (n : string) : option string :=
  match dict_get n (sub_agents w) with
  | Some a => _card a
  | None => None
  end.

(** The descriptions dictionary read off the cards the agents hold. *)
Definition descriptions_of (w : world) (names : list string)
  (descriptions : dict string) : dict string :=
  fold_left
    (fun ds n =>
       dict_set n (match card_of w n with Some d => d | None => "" end) ds)
    names descriptions.

(** The number of agents that hold a client. *)
Definition connected (agents : dict SubAgent) : nat :=
  length (filter (fun item => match _client (snd item) with
                              | Some _ => true
                              | None => false
                              end) agents).

(** The clients are in order: each agent's client was built for the
    agent's URL, no two agents hold the same client, and every client ever
    constructed is held by an agent. *)
Definition clients_ok (w : world) : Prop :=
  (forall n a c,
     dict_get n (sub_agents w) = Some a -> _client a = Some c ->
     client_url c = url a /\ client_id c < clients_made w)
  /\ (forall n1 n2 c,
        client_of w n1 = Some c -> client_of w n2 = Some c -> n1 = n2)
  /\ clients_made w = connected (sub_agents w).

(** From [w] to [w'] the agents kept their names, their URLs, and the
    clients and cards they already had; the call log only grew, and the
    clients stayed in order if they were. *)
Definition evolves (w w' : world) : Prop :=
  dict_keys (sub_agents w') = dict_keys (sub_agents w)
  /\ (forall n a,
        dict_get n (sub_agents w) = Some a ->
        exists a',
          dict_get n (sub_agents w') = Some a'
          /\ name a' = name a /\ url a' = url a
          /\ (forall c, _client a = Some c -> _client a' = Some c)
          /\ (forall d, _card a = Some d -> _card a' = Some d))
  /\ (exists invs, invocations w' = (invocations w ++ invs)%list)
  /\ clients_made w <= clients_made w'
  /\ (clients_ok w -> clients_ok w').

(** The names selected that are configured, in the order selected. *)
Definition configured_selection (w : world) (selected : list string)
  : list string :=
  filter (fun n => dict_contains n (sub_agents w)) selected.

(** A coroutine that lets the state evolve, from wherever it starts. *)
Definition preserves {A} (m : M A) : Prop :=
  forall w, evolves w (snd (m w)).

(** The call [ci] went through: its stream ended without an exception. *)
Definition completed (env : Env) (ci : A2AClient * string) : Prop :=
  snd (client_execute_task env (fst ci) (snd ci)) = None.

(** What the call [ci] to the agent stored under [n] puts into the queue in
    the sequential pattern: the announcement, then the forwarded events. *)
Definition delegation_block (env : Env) (w : world)
  (nci : string * (A2AClient * string)) : list event :=
  match dict_get (fst nci) (sub_agents w) with
  | Some a =>
      delegating_event a
        :: fst (client_execute_task env (fst (snd nci)) (snd (snd nci)))
  | None => []
  end.

(** ** Configurations used in the examples *)

Module Examples.

(** The sub-agent URLs of [__main__.py]. *)
Definition main_urls : dict string :=
  [("agent_1", "http://localhost:10001");
   ("agent_2", "http://localhost:10002");
   ("agent_3", "http://localhost:10003")].

(** The event stream of the repository's simple agent: THINKING, one text,
    COMPLETED. *)
Definition simple_agent_events (response : string) : list event :=
  [AgentExecutionStateEvent THINKING "Processing your request...";
   AgentExecutionTextEvent response (Some false);
   AgentExecutionStateEvent COMPLETED "Task completed successfully!"].

(** A sub-agent whose stream breaks after its first event. *)
Definition broken_stream (reason : string) : list event * option exn :=
  ([AgentExecutionStateEvent THINKING "Processing your request..."],
   Some (Raised reason ("ConnectionError('" ++ reason ++ "')"))).

Definition quoted (s : string) : string := "'" ++ s ++ "'".

(** An orchestrator with a single sub-agent. *)
Definition one_url : dict string :=
  [("agent_1", "http://localhost:10001")].

(** Every sub-agent is a simple agent answering "42". *)
Definition env_simple : Env :=
  mkEnv quoted (fun _ => None)
        (fun _ _ => (simple_agent_events "42", None)).

(** Every sub-agent is a simple agent answering with its instruction. *)
Definition env_echo : Env :=
  mkEnv quoted (fun _ => None)
        (fun _ instruction => (simple_agent_events instruction, None)).

(** Sub-agents that send texts only, no status event. *)
Definition env_text_only : Env :=
  mkEnv quoted (fun _ => None)
        (fun c _ => ([AgentExecutionTextEvent (client_url c) None], None)).

(** The streams of agent_2 and agent_3 break; agent_1 is a simple agent. *)
Definition env_broken : Env :=
  mkEnv quoted (fun _ => None)
        (fun c _ =>
           if String.eqb (client_url c) "http://localhost:10002"
           then broken_stream "agent_2 hung up"
           else if String.eqb (client_url c) "http://localhost:10003"
           then broken_stream "agent_3 hung up"
           else (simple_agent_events "42", None)).

(** The "advanced example" of [_build_instruction_for_agent]: the previous
    results are listed in the instruction. *)
Definition advanced_build_instruction
  (agent_name original_message : string) (previous_results : dict string)
  : string :=
  match previous_results with
  | [] => original_message
  | _ :: _ =>
      let context :=
        join nl (map (fun item => "- " ++ fst item ++ ": " ++ snd item)
                     previous_results) in
      original_message ++ nl ++ nl ++ "Previous results:" ++ nl ++ context
  end.

Definition advanced_methods : Methods :=
  mkMethods advanced_build_instruction _select_agents_for_task
            _should_stop_execution _is_result_satisfactory
            _synthesize_results.

(** A router in the style of the keyword example: nothing matches. *)
Definition select_none (self_sub_agents : dict SubAgent)
  (user_message : string) : list string := [].

Definition routing_none_methods : Methods :=
  mkMethods _build_instruction_for_agent select_none
            _should_stop_execution _is_result_satisfactory
            _synthesize_results.


(** The call to agent_2 is cancelled after its first event; the other
    agents are simple agents. *)
Definition env_cancelled : Env :=
  mkEnv quoted (fun _ => None)
        (fun c _ =>
           if String.eqb (client_url c) "http://localhost:10002"
           then ([AgentExecutionStateEvent THINKING
                    "Processing your request..."],
                 Some (Cancelled "" "CancelledError()"))
           else (simple_agent_events "42", None)).

(** No sub-agent can be reached: every client constructor raises. *)
Definition env_unreachable : Env :=
  mkEnv quoted
        (fun _ => Some (Raised "unreachable" "ConnectionError('unreachable')"))
        (fun _ _ => ([], None)).

(** Remote agents that send their card, and remote agents that do not. *)
Definition card_sent (c : A2AClient) : outcome string :=
  Return ("Card of " ++ client_url c).

Definition card_refused (c : A2AClient) : outcome string :=
  Raise (Raised "no card" "CardError('no card')").

(** A router that selects agent_2 twice and a name that is not configured,
    with a stopping predicate that is never true. *)
Definition select_some (self_sub_agents : dict SubAgent)
  (user_message : string) : list string :=
  ["agent_2"; "ghost"; "agent_1"; "agent_2"].

Definition routing_some_methods : Methods :=
  mkMethods _build_instruction_for_agent select_some
            (fun _ => false) _is_result_satisfactory
            _synthesize_results.

End Examples.

Local Open Scope list_scope.

(** ** Dictionaries *)

Lemma dict_get_set_same {V} (k : string) (v : V) (d : dict V) :
  dict_get k (dict_set k v d) = Some v.
Proof.
  induction d as [|[k' v'] d IH]; simpl.
  - now rewrite String.eqb_refl.
  - destruct (String.eqb k k') eqn:E; simpl; rewrite E; auto.
Qed.

Lemma dict_keys_set_present {V} (k : string) (v : V) (d : dict V) :
  dict_get k d <> None -> dict_keys (dict_set k v d) = dict_keys d.
Proof.
  unfold dict_keys.
  induction d as [|[k' v'] d IH]; simpl; intros H.
  - congruence.
  - destruct (String.eqb k k') eqn:E; simpl; [reflexivity|].
    f_equal. now apply IH.
Qed.

Lemma dict_get_None_keys {V} (k : string) (d : dict V) :
  dict_get k d = None <-> ~ In k (dict_keys d).
Proof.
  unfold dict_keys.
  induction d as [|[k' v'] d IH]; simpl.
  - tauto.
  - destruct (String.eqb k k') eqn:E.
    + apply String.eqb_eq in E. subst.
      split; [discriminate | intros H; exfalso; apply H; now left].
    + apply String.eqb_neq in E. rewrite IH.
      split; [intros H [H'|H']; [congruence | tauto] | tauto].
Qed.

Lemma dict_set_absent {V} (k : string) (v : V) (d : dict V) :
  ~ In k (dict_keys d) -> dict_set k v d = (d ++ [(k, v)])%list.
Proof.
  unfold dict_keys.
  induction d as [|[k' v'] d IH]; simpl; intros H; [reflexivity|].
  destruct (String.eqb k k') eqn:E.
  - apply String.eqb_eq in E. exfalso. apply H. left. congruence.
  - f_equal. apply IH. tauto.
Qed.

(** ** The results dictionary of the sequential pattern *)

Lemma dict_keys_all_completed (names : list string) :
  dict_keys (all_completed names) = names.
Proof.
  unfold dict_keys, all_completed. rewrite map_map. simpl. apply map_id.
Qed.

Lemma record_completed_fresh (names done : list string) :
  NoDup (done ++ names) ->
  record_completed names (all_completed done) = all_completed (done ++ names).
Proof.
  revert done. induction names as [|n names IH]; intros done H; simpl.
  - now rewrite app_nil_r.
  - rewrite dict_set_absent.
    + replace (all_completed done ++ [(n, "completed")])%list
        with (all_completed (done ++ [n])).
      * rewrite IH; rewrite <- app_assoc; simpl; auto.
      * unfold all_completed. now rewrite map_app.
    + rewrite dict_keys_all_completed.
      apply NoDup_remove_2 in H. intros Hin. apply H.
      apply in_or_app. now left.
Qed.

(** ** Runs that extend the state *)

Lemma extends_refl (w : world) : extends w w [] [].
Proof. unfold extends. now rewrite !app_nil_r. Qed.

Lemma extends_trans (w w1 w2 : world) evs1 invs1 evs2 invs2 :
  extends w w1 evs1 invs1 -> extends w1 w2 evs2 invs2 ->
  extends w w2 (evs1 ++ evs2) (invs1 ++ invs2).
Proof.
  unfold extends. intros (Hq1 & Hi1 & Hk1) (Hq2 & Hi2 & Hk2).
  rewrite Hq2, Hq1, Hi2, Hi1, Hk2, Hk1, !app_assoc. auto.
Qed.

Lemma count_terminal_app (l1 l2 : list event) :
  count_terminal (l1 ++ l2) = count_terminal l1 + count_terminal l2.
Proof. unfold count_terminal. now rewrite filter_app, length_app. Qed.

Lemma forwarded_app (env : Env) (l1 l2 : list (A2AClient * string)) :
  forwarded env (l1 ++ l2) = (forwarded env l1 ++ forwarded env l2)%list.
Proof. unfold forwarded. now rewrite map_app, concat_app. Qed.

(** ** Merging the event streams of concurrent coroutines *)




(** ** The effect of the basic operations *)

Section Properties.

Variable env : Env.
Variable self : Methods.

Lemma enqueue_all_eq (l : list event) (w : world) :
  enqueue_all l w =
    (Return tt,
     mkWorld (event_queue w ++ l) (sub_agents w) (clients_made w)
             (invocations w)).
Proof.
  revert w. induction l as [|e l IH]; intros w; simpl.
  - unfold ret. rewrite app_nil_r. now destruct w.
  - unfold bind, enqueue_event. rewrite IH. simpl.
    now rewrite <- app_assoc.
Qed.

Lemma forward_events_eq (c : A2AClient) (instruction : string) (w : world) :
  forward_events env c instruction w =
    (match snd (client_execute_task env c instruction) with
     | None => Return tt
     | Some e => Raise e
     end,
     mkWorld (event_queue w ++ fst (client_execute_task env c instruction))
             (sub_agents w) (clients_made w)
             (invocations w ++ [(c, instruction)])).
Proof.
  unfold forward_events.
  destruct (client_execute_task env c instruction) as [events error].
  rewrite enqueue_all_eq. simpl. now destruct error.
Qed.

(** [get_client] leaves the queue and the call log alone, and keeps the
    names of [self.sub_agents]. *)
Lemma get_client_frame (agent_name : string) (w : world) :
  let w' := snd (get_client env agent_name w) in
  event_queue w' = event_queue w /\
  invocations w' = invocations w /\
  dict_keys (sub_agents w') = dict_keys (sub_agents w).
Proof.
  unfold get_client, bind, the_agent.
  destruct (dict_get agent_name (sub_agents w)) as [a|] eqn:Ha; simpl; auto.
  destruct (_client a) as [c|]; simpl; auto.
  unfold new_A2AClient.
  destruct (A2AClient_init env (url a)); simpl; auto.
  unfold set_client; simpl. rewrite Ha; simpl.
  repeat split. apply dict_keys_set_present. congruence.
Qed.

(** After a successful [get_client] the agent holds the returned client. *)
Lemma get_client_stored (agent_name : string) (w w' : world)
  (c : A2AClient) :
  get_client env agent_name w = (Return c, w') ->
  exists a, dict_get agent_name (sub_agents w') = Some a
            /\ _client a = Some c.
Proof.
  unfold get_client, bind, the_agent.
  destruct (dict_get agent_name (sub_agents w)) as [a|] eqn:Ha;
    [|discriminate].
  destruct (_client a) as [c0|] eqn:Hc.
  - unfold ret. intros H; inversion H; subst. eauto.
  - unfold new_A2AClient.
    destruct (A2AClient_init env (url a)); [discriminate|].
    unfold set_client; simpl. rewrite Ha. unfold ret.
    intros H; inversion H; subst; simpl.
    rewrite dict_get_set_same. eauto.
Qed.

Lemma get_client_cached (agent_name : string) (w : world) (a : SubAgent)
  (c : A2AClient) :
  dict_get agent_name (sub_agents w) = Some a -> _client a = Some c ->
  get_client env agent_name w = (Return c, w).
Proof.
  intros Ha Hc. unfold get_client, bind, the_agent. now rewrite Ha, Hc.
Qed.

(** C8. Calling [SubAgent.get_client] twice does not open two
    connections: once a first call has returned the client [c] (created
    and stored, or found stored), a second call returns the same object
    [c] and changes nothing; in particular it constructs no new
    [A2AClient]. *)
Theorem get_client_memoized (agent_name : string) (w w1 : world)
  (c : A2AClient) :
  get_client env agent_name w = (Return c, w1) ->
  get_client env agent_name w1 = (Return c, w1)
  /\ clients_made (snd (get_client env agent_name w1)) = clients_made w1.
Proof.
  intros H. destruct (get_client_stored _ _ _ _ H) as (a & Ha & Hc).
  rewrite (get_client_cached _ _ _ _ Ha Hc). auto.
Qed.

(** C9 (amended). When the call through the handle's connection fails,
    the exception leaves [execute_task] and the memoized client stays in
    place: the next [get_client] returns the same, failed, client object
    and constructs no new one. *)
Theorem execute_task_failure_keeps_client (agent_name instruction : string)
  (w w0 w1 : world) (c : A2AClient) (e : exn) :
  get_client env agent_name w = (Return c, w0) ->
  execute_task env agent_name instruction w = (Raise e, w1) ->
  snd (client_execute_task env c instruction) = Some e
  /\ get_client env agent_name w1 = (Return c, w1)
  /\ clients_made w1 = clients_made w0.
Proof.
  intros Hg. unfold execute_task, bind. rewrite Hg.
  rewrite forward_events_eq.
  destruct (get_client_stored _ _ _ _ Hg) as (a & Ha & Hc).
  destruct (snd (client_execute_task env c instruction)) as [e'|] eqn:He;
    unfold ret; intros H; inversion H; subst.
  repeat split. eapply get_client_cached; simpl; eauto.
Qed.

Lemma enqueue_event_extends (e : event) (w : world) :
  extends w (snd (enqueue_event e w)) [e] [].
Proof. unfold extends; simpl. now rewrite app_nil_r. Qed.

(** [execute_task] makes at most one call, with the instruction it was
    given, and exactly one when it returns; what it adds to the queue is
    what that call forwards. *)
Lemma execute_task_spec (agent_name instruction : string) (w : world) :
  exists invs,
    extends w (snd (execute_task env agent_name instruction w))
            (forwarded env invs) invs
    /\ (invs = [] \/ exists c, invs = [(c, instruction)])
    /\ (forall b, fst (execute_task env agent_name instruction w) = Return b
                  -> exists c, invs = [(c, instruction)]).
Proof.
  unfold execute_task, bind.
  pose proof (get_client_frame agent_name w) as (Hq & Hi & Hk).
  destruct (get_client env agent_name w) as [[c|e] w0]; simpl in *.
  - rewrite forward_events_eq. exists [(c, instruction)].
    split; [|split].
    + destruct (snd (client_execute_task env c instruction));
        unfold extends, forwarded; simpl;
        rewrite Hq, Hi, Hk, app_nil_r; auto.
    + right. eauto.
    + intros. eauto.
  - exists []. split; [|split]; auto.
    + unfold extends, forwarded; simpl.
      rewrite Hq, Hi, Hk, !app_nil_r. auto.
    + discriminate.
Qed.

(** [execute_task] returns when nothing raises. *)
Lemma execute_task_returns (agent_name instruction : string) (w : world) :
  all_complete env ->
  dict_get agent_name (sub_agents w) <> None ->
  fst (execute_task env agent_name instruction w) = Return true.
Proof.
  intros [Hinit Hstream] Ha.
  unfold execute_task, get_client, bind, the_agent.
  destruct (dict_get agent_name (sub_agents w)) as [a|] eqn:Ea;
    [|congruence].
  destruct (_client a) as [c|]; unfold ret.
  - rewrite forward_events_eq, Hstream. reflexivity.
  - unfold new_A2AClient. rewrite Hinit. unfold set_client; simpl.
    rewrite Ea. rewrite forward_events_eq, Hstream. reflexivity.
Qed.

(** *** The sequential pattern *)

(** One turn of the loop. *)
Lemma sequential_loop_cons (n : string) (rest : list string)
  (msg : string) (results : dict string) (w : world) :
  sequential_loop env self (n :: rest) msg results w =
    match dict_get n (sub_agents w) with
    | None => (Raise (KeyError env n), w)
    | Some a =>
        match execute_task env n
                (build_instruction_for_agent self n msg results)
                (snd (enqueue_event (delegating_event a) w)) with
        | (Return _, w1) =>
            sequential_loop env self rest msg
              (dict_set n "completed" results) w1
        | (Raise e, w1) => (Raise e, w1)
        end
    end.
Proof.
  simpl. unfold bind at 1. unfold the_agent.
  destruct (dict_get n (sub_agents w)); reflexivity.
Qed.

(** What the loop over [names] does, started with [results]:
    - the terminal status events it puts into the queue are those that the
      sub-agent calls forward;
    - its N-th call is the call to the N-th name, with the instruction
      built from the results recorded for the names before it;
    - when it returns, every name was called and recorded. *)
Lemma sequential_loop_spec (names : list string) (msg : string) :
  forall (results : dict string) (w : world),
  exists evs invs,
    extends w (snd (sequential_loop env self names msg results w)) evs invs
    /\ count_terminal evs = count_terminal (forwarded env invs)
    /\ (forall N c instr,
          nth_error invs N = Some (c, instr) ->
          exists n,
            nth_error names N = Some n
            /\ instr =
                 build_instruction_for_agent self n msg
                   (record_completed (firstn N names) results))
    /\ (forall res,
          fst (sequential_loop env self names msg results w) = Return res ->
          res = record_completed names results
          /\ length invs = length names).
Proof.
  induction names as [|n rest IH]; intros results w.
  - exists [], []. simpl. split; [|split; [|split]].
    + apply extends_refl.
    + reflexivity.
    + intros N c instr H. destruct N; discriminate.
    + unfold ret. simpl. intros res H. inversion H. auto.
  - rewrite sequential_loop_cons.
    destruct (dict_get n (sub_agents w)) as [a|] eqn:Ha.
    + set (w0 := snd (enqueue_event (delegating_event a) w)).
      set (instr0 := build_instruction_for_agent self n msg results).
      destruct (execute_task_spec n instr0 w0)
        as (invs1 & Hext1 & Hshape & Hret).
      destruct (execute_task env n instr0 w0) as [[b|e] w1] eqn:Hrun;
        simpl in Hext1, Hret.
      * destruct (Hret b eq_refl) as [c Hc]. subst invs1.
        destruct (IH (dict_set n "completed" results) w1)
          as (evs2 & invs2 & Hext2 & Hcnt2 & Hnth2 & Hres2).
        exists ([delegating_event a] ++ forwarded env [(c, instr0)] ++ evs2),
               ([] ++ [(c, instr0)] ++ invs2).
        split; [|split; [|split]].
        -- eapply extends_trans; [apply enqueue_event_extends|].
           eapply extends_trans; eauto.
        -- rewrite !forwarded_app, !count_terminal_app, Hcnt2. reflexivity.
        -- intros N c' instr H. destruct N as [|N]; simpl in H.
           ++ inversion H; subst. exists n. auto.
           ++ destruct (Hnth2 _ _ _ H) as (n' & Hn' & Hi).
              exists n'. auto.
        -- intros res H. destruct (Hres2 res H) as [-> Hlen].
           simpl. auto.
      * exists ([delegating_event a] ++ forwarded env invs1), ([] ++ invs1).
        split; [|split; [|split]].
        -- eapply extends_trans; [apply enqueue_event_extends|]. eauto.
        -- rewrite count_terminal_app. reflexivity.
        -- intros N c' instr H.
           destruct Hshape as [->|[c ->]]; simpl in H.
           ++ destruct N; discriminate.
           ++ destruct N as [|N]; [|destruct N; discriminate].
              inversion H; subst. exists n. auto.
        -- simpl. discriminate.
    + exists [], []. simpl. split; [|split; [|split]].
      * apply extends_refl.
      * reflexivity.
      * intros N c instr H. destruct N; discriminate.
      * discriminate.
Qed.

(** When nothing raises, the loop over names of [self.sub_agents]
    returns. *)
Lemma sequential_loop_returns (names : list string) (msg : string) :
  all_complete env ->
  forall (results : dict string) (w : world),
    incl names (dict_keys (sub_agents w)) ->
    exists res,
      fst (sequential_loop env self names msg results w) = Return res.
Proof.
  intros Hall. induction names as [|n rest IH]; intros results w Hincl.
  - simpl. unfold ret. eauto.
  - rewrite sequential_loop_cons.
    assert (Hn : dict_get n (sub_agents w) <> None).
    { intros H. apply dict_get_None_keys in H. apply H, Hincl. now left. }
    destruct (dict_get n (sub_agents w)) as [a|] eqn:Ha; [|congruence].
    set (w0 := snd (enqueue_event (delegating_event a) w)).
    set (instr0 := build_instruction_for_agent self n msg results).
    assert (Hret : fst (execute_task env n instr0 w0) = Return true).
    { apply execute_task_returns; [exact Hall|].
      subst w0; simpl. congruence. }
    destruct (execute_task_spec n instr0 w0) as (invs1 & Hext1 & _ & _).
    destruct (execute_task env n instr0 w0) as [[b|e] w1]; simpl in *.
    + apply IH. destruct Hext1 as (_ & _ & ->).
      intros x Hx. apply Hincl. now right.
    + discriminate.
Qed.

Lemma sequential_orchestration_eq (msg : string) (w : world) :
  _sequential_orchestration env self msg w =
    match sequential_loop env self (dict_keys (sub_agents w)) msg [] w with
    | (Return results, w') => (Return (synthesize_results self results), w')
    | (Raise e, w') => (Raise e, w')
    end.
Proof. reflexivity. Qed.

(** When nothing raises, the sequential pattern returns the synthesis of
    the dictionary that maps every configured name to ["completed"]. *)
Lemma sequential_orchestration_returns (msg : string) (w : world) :
  all_complete env ->
  NoDup (dict_keys (sub_agents w)) ->
  fst (_sequential_orchestration env self msg w)
    = Return (synthesize_results self
                (all_completed (dict_keys (sub_agents w)))).
Proof.
  intros Hall Hnd. rewrite sequential_orchestration_eq.
  set (names := dict_keys (sub_agents w)).
  destruct (sequential_loop_returns names msg Hall [] w (incl_refl _))
    as [res Hres].
  destruct (sequential_loop_spec names msg [] w)
    as (evs & invs & _ & _ & _ & Hret).
  destruct (sequential_loop env self names msg [] w) as [[r|e] w'];
    simpl in Hres, Hret; [|discriminate].
  destruct (Hret r eq_refl) as [Hr _]. simpl.
  rewrite Hr. do 2 f_equal. apply (record_completed_fresh names []).
  exact Hnd.
Qed.

(** Whenever the sequential pattern returns, its answer is the synthesis of
    that same dictionary. *)
Lemma sequential_orchestration_answer (msg : string) (w : world)
  (answer : string) :
  NoDup (dict_keys (sub_agents w)) ->
  fst (_sequential_orchestration env self msg w) = Return answer ->
  answer = synthesize_results self (all_completed (dict_keys (sub_agents w))).
Proof.
  intros Hnd. rewrite sequential_orchestration_eq.
  set (names := dict_keys (sub_agents w)).
  destruct (sequential_loop_spec names msg [] w)
    as (evs & invs & _ & _ & _ & Hret).
  destruct (sequential_loop env self names msg [] w) as [[r|e] w'];
    simpl in *; [|discriminate].
  intros H. inversion H; subst.
  destruct (Hret r eq_refl) as [Hr _].
  rewrite Hr. f_equal. apply (record_completed_fresh names []). exact Hnd.
Qed.

(** *** The facade *)

Lemma execute_with_eq (orchestrate : string -> M string) (msg : string)
  (w : world) :
  execute_with orchestrate msg w =
    match orchestrate msg (snd (enqueue_event thinking_event w)) with
    | (Return result, w1) =>
        (Return tt,
         snd (enqueue_event completed_event
                (snd (enqueue_event
                        (AgentExecutionTextEvent result None) w1))))
    | (Raise e, w1) =>
        if is_Exception e
        then (Return tt, snd (enqueue_event (failed_event e) w1))
        else (Raise e, w1)
    end.
Proof.
  unfold execute_with, try_except, bind. simpl.
  destruct (orchestrate msg _) as [[result|e] w1]; [reflexivity|].
  destruct (is_Exception e); reflexivity.
Qed.

(** C2 (amended). Whatever pattern [execute] runs, an exception raised
    inside it that is an instance of [Exception] is absorbed: [execute]
    returns normally, and the last event it enqueues is the FAILED status
    whose description is "Orchestration failed: " followed by [str(e)].
    An exception that is not an instance of [Exception] (a
    [CancelledError]) is not caught by the [except Exception] clause: it
    leaves [execute], which enqueues nothing for it. *)
Theorem execute_absorbs_exception (orchestrate : string -> M string)
  (msg : string) (w w1 : world) (e : exn) :
  orchestrate msg (snd (enqueue_event thinking_event w)) = (Raise e, w1) ->
  (is_Exception e = true ->
   fst (execute_with orchestrate msg w) = Return tt
   /\ event_queue (snd (execute_with orchestrate msg w)) =
        event_queue w1
          ++ [AgentExecutionStateEvent FAILED
                ("Orchestration failed: " ++ str_exn e)%string])
  /\ (is_Exception e = false ->
      execute_with orchestrate msg w = (Raise e, w1)).
Proof.
  intros H. rewrite execute_with_eq, H.
  split; intros He; rewrite He; [split|]; reflexivity.
Qed.

(** C1 (amended). In a call of [execute] whose orchestration raises no
    exception outside [Exception], the last event of the stream is a
    terminal status event (COMPLETED or FAILED), the only one that
    [execute] emits itself; the events that [execute_task] forwards from
    the sub-agents are passed on as they are, so the number of terminal
    status events in the stream is one plus the number of those among the
    forwarded events: exactly one when the sub-agents forward none. *)
Theorem execute_terminal_events (msg : string) (w : world) :
  (forall e,
     fst (_orchestrate_task env self msg (snd (enqueue_event thinking_event w)))
     = Raise e ->
     is_Exception e = true) ->
  exists evs last invs,
    fst (execute env self msg w) = Return tt
    /\ extends w (snd (execute env self msg w)) (evs ++ [last]) invs
    /\ is_terminal last = true
    /\ count_terminal (evs ++ [last])
       = 1 + count_terminal (forwarded env invs).
Proof.
  intros Hexc. unfold execute. rewrite execute_with_eq.
  unfold _orchestrate_task in *.
  rewrite sequential_orchestration_eq in *.
  set (w0 := snd (enqueue_event thinking_event w)) in *.
  destruct (sequential_loop_spec (dict_keys (sub_agents w0)) msg [] w0)
    as (evs & invs & Hext & Hcnt & _ & _).
  pose proof (enqueue_event_extends thinking_event w) as H0. fold w0 in H0.
  destruct (sequential_loop env self (dict_keys (sub_agents w0)) msg [] w0)
    as [[results|e] w1]; simpl in Hext.
  - exists (([thinking_event] ++ evs)
              ++ [AgentExecutionTextEvent (synthesize_results self results)
                                          None]),
           completed_event, invs.
    split; [reflexivity|]. split; [|split; [reflexivity|]].
    + rewrite <- app_assoc.
      replace invs with (([] ++ invs) ++ [] ++ [])
        by (simpl; apply app_nil_r).
      eapply extends_trans; [eapply extends_trans; eauto|].
      eapply extends_trans; apply enqueue_event_extends.
    + rewrite !count_terminal_app, Hcnt.
      generalize (count_terminal (forwarded env invs)). intros k.
      unfold count_terminal; simpl. lia.
  - rewrite (Hexc e eq_refl).
    exists ([thinking_event] ++ evs), (failed_event e), invs.
    split; [reflexivity|]. split; [|split; [reflexivity|]].
    + replace invs with (([] ++ invs) ++ []) by (simpl; apply app_nil_r).
      eapply extends_trans; [eapply extends_trans; eauto|].
      apply enqueue_event_extends.
    + rewrite !count_terminal_app, Hcnt.
      generalize (count_terminal (forwarded env invs)). intros k.
      unfold count_terminal; simpl. lia.
Qed.

(** What the sequential pattern hands to [_build_instruction_for_agent]:
    the N-th call of a run is the call to the N-th configured agent, and
    its instruction is built from that agent's name, the original task and
    a results dictionary whose keys are exactly the names before position
    N, with no entry for the N-th or any later agent.  The value stored
    under each key is the constant ["completed"] of line 188, where the
    source announces the result of the agent ("Store result for next
    agent", "TODO: Store actual result").  When no call raises, every
    configured agent gets its call. *)
Theorem sequential_instruction_from_previous_results (msg : string)
  (w : world) (invs : list (A2AClient * string)) :
  let names := dict_keys (sub_agents w) in
  NoDup names ->
  invocations (snd (_sequential_orchestration env self msg w))
    = invocations w ++ invs ->
  (all_complete env -> length invs = length names)
  /\ forall N c instr,
       nth_error invs N = Some (c, instr) ->
       exists n,
         nth_error names N = Some n
         /\ instr =
              build_instruction_for_agent self n msg
                (all_completed (firstn N names))
         /\ dict_keys (all_completed (firstn N names)) = firstn N names
         /\ forall k m,
              N <= k -> nth_error names k = Some m ->
              dict_get m (all_completed (firstn N names)) = None.
Proof.
  intros names Hnd Hinv.
  rewrite sequential_orchestration_eq in Hinv. fold names in Hinv.
  destruct (sequential_loop_spec names msg [] w)
    as (evs & invs' & (_ & Hi & _) & _ & Hnth & Hres).
  assert (invs' = invs) as ->.
  { destruct (sequential_loop env self names msg [] w) as [[r|e] w'];
      simpl in *; rewrite Hi in Hinv; now apply app_inv_head in Hinv. }
  split.
  - intros Hall.
    destruct (sequential_loop_returns names msg Hall [] w) as [res Hr].
    { apply incl_refl. }
    now destruct (Hres res Hr).
  - intros N c instr H. destruct (Hnth N c instr H) as (n & Hn & ->).
    assert (HndN : NoDup (firstn N names)).
    { rewrite <- (firstn_skipn N names) in Hnd.
      now apply NoDup_app_remove_r in Hnd. }
    exists n. split; [exact Hn|]. split; [|split].
    + f_equal. apply (record_completed_fresh (firstn N names) []). exact HndN.
    + apply dict_keys_all_completed.
    + intros k m Hk Hm. apply dict_get_None_keys.
      rewrite dict_keys_all_completed. intros Hin.
      apply In_nth_error in Hin. destruct Hin as [j Hj].
      assert (Hjlt : j < N).
      { assert (Hl : j < length (firstn N names))
          by (apply nth_error_Some; congruence).
        rewrite length_firstn in Hl. lia. }
      rewrite nth_error_firstn in Hj.
      destruct (Nat.ltb_spec j N); [|lia].
      assert (j = k); [|lia].
      apply (proj1 (NoDup_nth_error names) Hnd).
      * apply nth_error_Some. congruence.
      * congruence.
Qed.

(** *** The iterative pattern *)

(** As long as the satisfaction predicate is false the loop goes through
    all its rounds, and leaves the loop variable at the last of them. *)
Lemma iterative_loop_unsatisfied (rounds : list nat) (cur : string) :
  (forall r, is_result_satisfactory self r = false) ->
  forall (iteration : option nat) (w : world),
    iterative_loop self rounds cur iteration w =
      (Return (fold_left (fun _ i => Some i) rounds iteration),
       mkWorld (event_queue w
                  ++ concat (map (fun i => round_events (i + 1)) rounds))
               (sub_agents w) (clients_made w) (invocations w)).
Proof.
  intros Hsat. induction rounds as [|i rest IH]; intros iteration w.
  - simpl. unfold ret. rewrite app_nil_r. now destruct w.
  - cbn [iterative_loop]. unfold bind, enqueue_event.
    rewrite Hsat, IH.
    cbn [event_queue sub_agents clients_made invocations map concat
         fold_left].
    unfold round_events. rewrite <- !app_assoc. reflexivity.
Qed.

(** C5. With the maximum of 3 rounds and a satisfaction predicate that is
    never true, the iterative pattern runs exactly the three rounds 1, 2
    and 3, each a generator step followed by a critic step, and returns
    "Completed after 3 iterations"; through [execute] the run ends with
    the COMPLETED status, not with FAILED. *)
Theorem iterative_runs_three_rounds (msg : string) (w : world) :
  (forall r, is_result_satisfactory self r = false) ->
  _iterative_orchestration self msg w =
    (Return "Completed after 3 iterations"%string,
     mkWorld (event_queue w
                ++ round_events 1 ++ round_events 2 ++ round_events 3)
             (sub_agents w) (clients_made w) (invocations w))
  /\ execute_with (_iterative_orchestration self) msg w =
       (Return tt,
        mkWorld (event_queue w
                   ++ [thinking_event]
                   ++ round_events 1 ++ round_events 2 ++ round_events 3
                   ++ [AgentExecutionTextEvent
                         "Completed after 3 iterations" None;
                       completed_event])
                (sub_agents w) (clients_made w) (invocations w)).
Proof.
  intros Hsat.
  assert (Hrun : forall w',
    _iterative_orchestration self msg w' =
      (Return "Completed after 3 iterations"%string,
       mkWorld (event_queue w'
                  ++ round_events 1 ++ round_events 2 ++ round_events 3)
               (sub_agents w') (clients_made w') (invocations w'))).
  { intros w'. unfold _iterative_orchestration, bind.
    rewrite iterative_loop_unsatisfied by exact Hsat.
    cbn [seq map concat fold_left Nat.add]. rewrite app_nil_r.
    reflexivity. }
  split; [apply Hrun|].
  rewrite execute_with_eq, Hrun.
  cbn [snd enqueue_event event_queue sub_agents clients_made invocations].
  rewrite <- !app_assoc. reflexivity.
Qed.

(** *** The conditional pattern *)

Lemma conditional_orchestration_eq (msg : string) (w : world) :
  _conditional_orchestration env self msg w =
    match conditional_loop env self
            (select_agents_for_task self (sub_agents w) msg) msg [] w with
    | (Return results, w') =>
        (Return ("Executed agents: " ++ join ", " results)%string, w')
    | (Raise e, w') => (Raise e, w')
    end.
Proof. reflexivity. Qed.

(** One turn of the loop. *)
Lemma conditional_loop_cons (n : string) (rest : list string)
  (msg : string) (results : list string) (w : world) :
  conditional_loop env self (n :: rest) msg results w =
    match dict_get n (sub_agents w) with
    | None => conditional_loop env self rest msg results w
    | Some a =>
        match execute_task env n msg
                (snd (enqueue_event (selected_event a) w)) with
        | (Return _, w1) =>
            if should_stop_execution self (results ++ [n])
            then (Return (results ++ [n]), w1)
            else conditional_loop env self rest msg (results ++ [n]) w1
        | (Raise e, w1) => (Raise e, w1)
        end
    end.
Proof.
  cbn [conditional_loop]. unfold dict_contains.
  destruct (dict_get n (sub_agents w)) as [a|] eqn:Ha; cbn [negb];
    [|reflexivity].
  unfold bind at 1. unfold the_agent. rewrite Ha.
  unfold bind at 1. unfold bind at 1.
  change (enqueue_event
            (AgentExecutionTextEvent
               (nl ++ "--- Selected " ++ name a ++ " for this task ---"
                   ++ nl)%string None) w)
    with (Return tt, snd (enqueue_event (selected_event a) w)).
  cbv beta iota.
  destruct (execute_task env n msg _) as [[b|e] w1]; [|reflexivity].
  destruct (should_stop_execution self (results ++ [n])); reflexivity.
Qed.

(** C6. When the routing function selects no agent, the conditional
    pattern calls no sub-agent and returns the answer that lists no
    agent; through [execute] the run ends with COMPLETED, not with
    FAILED. *)
Theorem routed_empty_selection_completes (msg : string) (w : world) :
  select_agents_for_task self (sub_agents w) msg = [] ->
  _conditional_orchestration env self msg w
    = (Return "Executed agents: "%string, w)
  /\ execute_with (_conditional_orchestration env self) msg w =
       (Return tt,
        mkWorld (event_queue w
                   ++ [thinking_event;
                       AgentExecutionTextEvent "Executed agents: " None;
                       completed_event])
                (sub_agents w) (clients_made w) (invocations w)).
Proof.
  intros Hsel.
  assert (Hrun : forall w', sub_agents w' = sub_agents w ->
    _conditional_orchestration env self msg w'
      = (Return "Executed agents: "%string, w')).
  { intros w' Hw'. rewrite conditional_orchestration_eq, Hw', Hsel.
    reflexivity. }
  split; [now apply Hrun|].
  rewrite execute_with_eq, Hrun by reflexivity. simpl.
  rewrite <- !app_assoc. reflexivity.
Qed.

(** C7. With the default stopping predicate, a selection that starts with
    a configured agent runs that agent's [execute_task] and nothing else:
    the run makes at most one sub-agent call, and when the first agent
    completes it makes exactly one, the stopping predicate is true on the
    one-element result list, and the answer lists that agent alone. *)
Theorem routed_default_stops_after_first (msg first : string)
  (rest : list string) (w : world) (a : SubAgent) :
  should_stop_execution self = _should_stop_execution ->
  select_agents_for_task self (sub_agents w) msg = first :: rest ->
  dict_get first (sub_agents w) = Some a ->
  let run := _conditional_orchestration env self msg w in
  let w0 := snd (enqueue_event (selected_event a) w) in
  run = match execute_task env first msg w0 with
        | (Return _, w1) =>
            (Return ("Executed agents: " ++ first)%string, w1)
        | (Raise e, w1) => (Raise e, w1)
        end
  /\ should_stop_execution self [first] = true
  /\ exists invs,
       invocations (snd run) = invocations w ++ invs
       /\ length invs <= 1
       /\ (forall answer, fst run = Return answer ->
                          exists c, invs = [(c, msg)]).
Proof.
  intros Hstop Hsel Ha run w0.
  assert (Hrun : run =
    match execute_task env first msg w0 with
    | (Return _, w1) => (Return ("Executed agents: " ++ first)%string, w1)
    | (Raise e, w1) => (Raise e, w1)
    end).
  { unfold run.
    rewrite conditional_orchestration_eq, Hsel, conditional_loop_cons, Ha.
    fold w0.
    destruct (execute_task env first msg w0) as [[b|e] w1];
      [|reflexivity].
    rewrite Hstop. reflexivity. }
  split; [exact Hrun|]. split; [now rewrite Hstop|].
  destruct (execute_task_spec first msg w0) as (invs & Hext & Hshape & Hret).
  exists invs. rewrite Hrun.
  destruct (execute_task env first msg w0) as [[b|e] w1]; simpl in *.
  - destruct Hext as (_ & -> & _). split; [reflexivity|].
    destruct (Hret b eq_refl) as [c ->]. split; [simpl; lia|]. eauto.
  - destruct Hext as (_ & -> & _). split; [reflexivity|].
    split; [|discriminate].
    destruct Hshape as [->|[c ->]]; simpl; lia.
Qed.

(** *** The parallel pattern *)

Lemma parallel_orchestration_eq (schedule : list nat) (msg : string)
  (w : world) :
  _parallel_orchestration env schedule msg w =
    let w0 := snd (enqueue_event parallel_event w) in
    match gather env schedule
            (parallel_tasks (dict_keys (sub_agents w0)) msg) w0 with
    | (Return results, w1) =>
        match exceptions_of results with
        | _ :: _ =>
            (Raise (Exception
                      ("Some agents failed: "
                         ++ repr_list env (exceptions_of results))%string),
             w1)
        | [] =>
            (Return "All agents completed successfully in parallel!"%string,
             w1)
        end
    | (Raise e, w1) => (Raise e, w1)
    end.
Proof.
  unfold _parallel_orchestration. unfold bind at 1.
  change (enqueue_event
            (AgentExecutionTextEvent
               ("Executing multiple agents in parallel..." ++ nl)%string
               None) w)
    with (Return tt, snd (enqueue_event parallel_event w)).
  cbv beta iota zeta. unfold bind at 1.
  destruct (gather env schedule _ _) as [[results|e] w1]; [|reflexivity].
  destruct (exceptions_of results); reflexivity.
Qed.

End Properties.

(** ** Two runs *)

(** C10. In the sequential pattern the final answer does not depend on what
    the sub-agents send: for two runs over the same configured names, in any
    two environments and on any two tasks, every answer returned is the same
    string, which lists the configured names in their declared order; and a
    run in which no sub-agent call raises does return it. *)
Theorem sequential_answer_independent_of_outputs (env1 env2 : Env)
  (self : Methods) (msg1 msg2 : string) (w1 w2 : world) :
  NoDup (dict_keys (sub_agents w1)) ->
  dict_keys (sub_agents w2) = dict_keys (sub_agents w1) ->
  synthesize_results self = _synthesize_results ->
  let answer :=
    ("Orchestration completed. Agents executed: "
       ++ join ", " (dict_keys (sub_agents w1)))%string in
  let run1 := _sequential_orchestration env1 self msg1 w1 in
  let run2 := _sequential_orchestration env2 self msg2 w2 in
  (forall a1 a2,
     fst run1 = Return a1 -> fst run2 = Return a2 ->
     a1 = answer /\ a2 = answer)
  /\ (all_complete env1 -> fst run1 = Return answer)
  /\ (all_complete env2 -> fst run2 = Return answer).
Proof.
  intros Hnd Hkeys Hsyn answer run1 run2.
  assert (Hnd2 : NoDup (dict_keys (sub_agents w2))) by now rewrite Hkeys.
  assert (Hans : synthesize_results self
                   (all_completed (dict_keys (sub_agents w1))) = answer).
  { rewrite Hsyn. unfold _synthesize_results.
    now rewrite dict_keys_all_completed. }
  split; [|split].
  - intros a1 a2 H1 H2.
    apply sequential_orchestration_answer in H1; [|exact Hnd].
    apply sequential_orchestration_answer in H2; [|exact Hnd2].
    rewrite Hkeys in H2. rewrite <- Hans. auto.
  - intros Hall. unfold run1.
    rewrite sequential_orchestration_returns; auto. now rewrite Hans.
  - intros Hall. unfold run2.
    rewrite sequential_orchestration_returns; auto.
    now rewrite Hkeys, Hans.
Qed.

(** ** The theorems at work on the example configurations *)

Import Examples.

(** C8 at work: the first call builds client 0 for agent_1, the second
    returns it. *)
Lemma get_client_memoized_witness :
  let w1 := snd (get_client env_simple "agent_1" (initial_world main_urls)) in
  get_client env_simple "agent_1" w1
    = (Return (mkClient 0 "http://localhost:10001"), w1)
  /\ clients_made (snd (get_client env_simple "agent_1" w1)) = 1.
Proof.
  exact (get_client_memoized env_simple "agent_1" (initial_world main_urls)
           _ (mkClient 0 "http://localhost:10001") eq_refl).
Defined.

(** C9 refuted as stated: the stream of agent_2 breaks, yet after the failed
    [execute_task] the handle still holds client 0, and the next
    [get_client] returns that client; no second client is constructed. *)
Lemma client_not_invalidated_on_failure :
  let r := execute_task env_broken "agent_2" "task"
             (initial_world main_urls) in
  fst r = Raise (Raised "agent_2 hung up" "ConnectionError('agent_2 hung up')")
  /\ option_map _client (dict_get "agent_2" (sub_agents (snd r)))
     = Some (Some (mkClient 0 "http://localhost:10002"))
  /\ get_client env_broken "agent_2" (snd r)
     = (Return (mkClient 0 "http://localhost:10002"), snd r)
  /\ clients_made (snd r) = 1.
Proof. vm_compute. auto. Qed.

(** C9 (amended) at work on the same run. *)
Lemma execute_task_failure_keeps_client_witness :
  let w := initial_world main_urls in
  let r := execute_task env_broken "agent_2" "task" w in
  snd (client_execute_task env_broken (mkClient 0 "http://localhost:10002")
         "task")
    = Some (Raised "agent_2 hung up" "ConnectionError('agent_2 hung up')")
  /\ get_client env_broken "agent_2" (snd r)
     = (Return (mkClient 0 "http://localhost:10002"), snd r)
  /\ clients_made (snd r)
     = clients_made (snd (get_client env_broken "agent_2" w)).
Proof.
  exact (execute_task_failure_keeps_client env_broken "agent_2" "task"
           (initial_world main_urls) _ _
           (mkClient 0 "http://localhost:10002")
           (Raised "agent_2 hung up" "ConnectionError('agent_2 hung up')")
           eq_refl eq_refl).
Defined.

(** C1 refuted as stated: with one simple agent as sub-agent, the stream of
    one run holds two terminal status events, the COMPLETED forwarded from
    the sub-agent and the COMPLETED of [execute].  And in a run whose call
    to agent_2 is cancelled, [execute] emits no terminal status event: the
    only one in the stream is the COMPLETED forwarded from agent_1, and the
    stream ends on the THINKING of agent_2. *)
Lemma execute_stream_with_two_terminal_events :
  let stream :=
    event_queue
      (snd (execute env_simple OrchestratorExecutor_methods "task"
              (initial_world one_url))) in
  let cancelled :=
    event_queue
      (snd (execute env_cancelled OrchestratorExecutor_methods "task"
              (initial_world main_urls))) in
  stream =
    [thinking_event;
     delegating_event (SubAgent_init "agent_1" "http://localhost:10001");
     AgentExecutionStateEvent THINKING "Processing your request...";
     AgentExecutionTextEvent "42" (Some false);
     AgentExecutionStateEvent COMPLETED "Task completed successfully!";
     AgentExecutionTextEvent
       "Orchestration completed. Agents executed: agent_1" None;
     completed_event]
  /\ count_terminal stream = 2
  /\ cancelled =
       [thinking_event;
        delegating_event (SubAgent_init "agent_1" "http://localhost:10001");
        AgentExecutionStateEvent THINKING "Processing your request...";
        AgentExecutionTextEvent "42" (Some false);
        AgentExecutionStateEvent COMPLETED "Task completed successfully!";
        delegating_event (SubAgent_init "agent_2" "http://localhost:10002");
        AgentExecutionStateEvent THINKING "Processing your request..."]
  /\ map is_terminal cancelled
     = [false; false; false; false; true; false; false].
Proof. vm_compute. auto. Qed.

(** C2 refuted as stated: the call to agent_2 ends in
    [asyncio.CancelledError], which is no instance of [Exception]; the
    [except Exception] clause of [execute] lets it pass, so [execute]
    raises it to its caller and enqueues no FAILED status event. *)
Lemma execute_reraises_cancellation :
  let r :=
    execute env_cancelled OrchestratorExecutor_methods "task"
      (initial_world main_urls) in
  fst r = Raise (Cancelled "" "CancelledError()")
  /\ is_Exception (Cancelled "" "CancelledError()") = false
  /\ event_queue (snd r) =
       [thinking_event;
        delegating_event (SubAgent_init "agent_1" "http://localhost:10001");
        AgentExecutionStateEvent THINKING "Processing your request...";
        AgentExecutionTextEvent "42" (Some false);
        AgentExecutionStateEvent COMPLETED "Task completed successfully!";
        delegating_event (SubAgent_init "agent_2" "http://localhost:10002");
        AgentExecutionStateEvent THINKING "Processing your request..."].
Proof. vm_compute. auto. Qed.

(** C2 (amended) at work: the broken stream of agent_2 raises an instance
    of [Exception]; it ends the sequential run with the FAILED status, and
    [execute] returns. *)
Lemma execute_absorbs_exception_witness :
  let orchestrate := _orchestrate_task env_broken OrchestratorExecutor_methods in
  let w := initial_world main_urls in
  let r := orchestrate "task" (snd (enqueue_event thinking_event w)) in
  fst (execute_with orchestrate "task" w) = Return tt
  /\ event_queue (snd (execute_with orchestrate "task" w)) =
       event_queue (snd r)
         ++ [AgentExecutionStateEvent FAILED
               "Orchestration failed: agent_2 hung up"].
Proof.
  intros orchestrate w r.
  destruct (execute_absorbs_exception orchestrate "task" w (snd r)
              (Raised "agent_2 hung up" "ConnectionError('agent_2 hung up')"))
    as [Hcaught _].
  - vm_compute. reflexivity.
  - apply Hcaught. reflexivity.
Defined.

(** C1 (amended) at work on the run with one simple agent. *)
Lemma execute_terminal_events_witness :
  exists evs last invs,
    fst (execute env_simple OrchestratorExecutor_methods "task"
           (initial_world one_url)) = Return tt
    /\ extends (initial_world one_url)
         (snd (execute env_simple OrchestratorExecutor_methods "task"
                 (initial_world one_url)))
         (evs ++ [last]) invs
    /\ is_terminal last = true
    /\ count_terminal (evs ++ [last])
       = 1 + count_terminal (forwarded env_simple invs).
Proof.
  apply (execute_terminal_events env_simple OrchestratorExecutor_methods
           "task" (initial_world one_url)).
  intros e He. vm_compute in He. discriminate He.
Defined.

(** Sub-agents that forward no terminal status event leave exactly one in
    the stream. *)
Example execute_one_terminal_event_text_only :
  count_terminal
    (event_queue
       (snd (execute env_text_only OrchestratorExecutor_methods "task"
               (initial_world main_urls)))) = 1.
Proof. vm_compute. reflexivity. Qed.

(** C3 at the failing input.  Over the agents of [__main__.py], each a
    simple agent that answers "42", the sequential loop of the source
    calls every agent and returns the results dictionary that it handed,
    entry after entry, to [_build_instruction_for_agent]: the entry of
    every agent is the constant "completed" of line 188, not the "42" the
    agent sent, which went to the event queue only. *)
Theorem sequential_results_are_not_the_outputs :
  let w := initial_world main_urls in
  let run :=
    sequential_loop env_simple OrchestratorExecutor_methods
      (dict_keys (sub_agents w)) "task" [] w in
  fst (client_execute_task env_simple (mkClient 0 "http://localhost:10001")
         "task")
    = [AgentExecutionStateEvent THINKING "Processing your request...";
       AgentExecutionTextEvent "42" (Some false);
       AgentExecutionStateEvent COMPLETED "Task completed successfully!"]
  /\ fst run =
       Return [("agent_1", "completed"%string);
               ("agent_2", "completed"%string);
               ("agent_3", "completed"%string)]
  /\ invocations (snd run) =
       [(mkClient 0 "http://localhost:10001", "task"%string);
        (mkClient 1 "http://localhost:10002", "task"%string);
        (mkClient 2 "http://localhost:10003", "task"%string)].
Proof. vm_compute. auto. Qed.

(** C5 at work, with the predicate of the source. *)
Lemma iterative_runs_three_rounds_witness :
  let w := initial_world main_urls in
  _iterative_orchestration OrchestratorExecutor_methods "task" w =
    (Return "Completed after 3 iterations"%string,
     mkWorld (event_queue w
                ++ round_events 1 ++ round_events 2 ++ round_events 3)
             (sub_agents w) (clients_made w) (invocations w))
  /\ execute_with (_iterative_orchestration OrchestratorExecutor_methods)
       "task" w =
       (Return tt,
        mkWorld (event_queue w
                   ++ [thinking_event]
                   ++ round_events 1 ++ round_events 2 ++ round_events 3
                   ++ [AgentExecutionTextEvent
                         "Completed after 3 iterations" None;
                       completed_event])
                (sub_agents w) (clients_made w) (invocations w)).
Proof.
  intros w.
  apply (iterative_runs_three_rounds OrchestratorExecutor_methods "task" w).
  intros r. reflexivity.
Defined.

(** C6 at work, with a router that selects nothing. *)
Lemma routed_empty_selection_completes_witness :
  let w := initial_world main_urls in
  _conditional_orchestration env_simple routing_none_methods "task" w
    = (Return "Executed agents: "%string, w)
  /\ execute_with (_conditional_orchestration env_simple routing_none_methods)
       "task" w =
       (Return tt,
        mkWorld (event_queue w
                   ++ [thinking_event;
                       AgentExecutionTextEvent "Executed agents: " None;
                       completed_event])
                (sub_agents w) (clients_made w) (invocations w)).
Proof.
  intros w.
  apply (routed_empty_selection_completes env_simple routing_none_methods
           "task" w).
  reflexivity.
Defined.

(** C7 at work: all three agents are selected, agent_1 alone is called. *)
Lemma routed_default_stops_after_first_witness :
  let w := initial_world main_urls in
  let a := SubAgent_init "agent_1" "http://localhost:10001" in
  let run :=
    _conditional_orchestration env_simple OrchestratorExecutor_methods
      "task" w in
  let w0 := snd (enqueue_event (selected_event a) w) in
  run = match execute_task env_simple "agent_1" "task" w0 with
        | (Return _, w1) =>
            (Return ("Executed agents: " ++ "agent_1")%string, w1)
        | (Raise e, w1) => (Raise e, w1)
        end
  /\ should_stop_execution OrchestratorExecutor_methods ["agent_1"] = true
  /\ exists invs,
       invocations (snd run) = invocations w ++ invs
       /\ length invs <= 1
       /\ (forall answer, fst run = Return answer ->
                          exists c, invs = [(c, "task"%string)]).
Proof.
  intros w a.
  apply (routed_default_stops_after_first env_simple
           OrchestratorExecutor_methods "task" "agent_1"
           ["agent_2"; "agent_3"]%string w a);
    reflexivity.
Defined.

Example routed_calls_agent_1_only :
  let w' :=
    snd (_conditional_orchestration env_simple OrchestratorExecutor_methods
           "task" (initial_world main_urls)) in
  invocations w' = [(mkClient 0 "http://localhost:10001", "task"%string)]
  /\ clients_made w' = 1.
Proof. vm_compute. auto. Qed.

(** C10 at work: simple agents answering "42" against agents echoing their
    instruction, on different tasks. *)
Lemma sequential_answer_independent_of_outputs_witness :
  let w := initial_world main_urls in
  let answer :=
    "Orchestration completed. Agents executed: agent_1, agent_2, agent_3"
      %string in
  let run1 :=
    _sequential_orchestration env_simple OrchestratorExecutor_methods
      "task" w in
  let run2 :=
    _sequential_orchestration env_echo OrchestratorExecutor_methods
      "another task" w in
  (forall a1 a2,
     fst run1 = Return a1 -> fst run2 = Return a2 ->
     a1 = answer /\ a2 = answer)
  /\ (all_complete env_simple -> fst run1 = Return answer)
  /\ (all_complete env_echo -> fst run2 = Return answer).
Proof.
  intros w.
  apply (sequential_answer_independent_of_outputs env_simple env_echo
           OrchestratorExecutor_methods "task" "another task" w w).
  - simpl. repeat constructor; simpl; intuition discriminate.
  - reflexivity.
  - reflexivity.
Defined.

(** The two runs of that example do return, with different streams. *)
Example sequential_two_runs_return :
  let w := initial_world main_urls in
  let run1 :=
    _sequential_orchestration env_simple OrchestratorExecutor_methods
      "task" w in
  let run2 :=
    _sequential_orchestration env_echo OrchestratorExecutor_methods
      "another task" w in
  fst run1 = fst run2
  /\ fst run1
     = Return
         "Orchestration completed. Agents executed: agent_1, agent_2, agent_3"
         %string
  /\ event_queue (snd run1) <> event_queue (snd run2).
Proof.
  split; [vm_compute; reflexivity|]. split; [vm_compute; reflexivity|].
  vm_compute. discriminate.
Qed.

(** With the router of the source, nothing is selected when no sub-agent is
    configured. *)
Example routed_no_agents_configured :
  _conditional_orchestration env_simple OrchestratorExecutor_methods "task"
    (initial_world [])
  = (Return "Executed agents: "%string, initial_world []).
Proof. reflexivity. Qed.

(** * Further properties of the module *)

(** ** The agents and their clients along a run *)

Lemma dict_get_set_other {V} (k k' : string) (v : V) (d : dict V) :
  k <> k' -> dict_get k (dict_set k' v d) = dict_get k d.
Proof.
  intros Hk. induction d as [|[k0 v0] d IH]; simpl.
  - apply String.eqb_neq in Hk. now rewrite Hk.
  - destruct (String.eqb k' k0) eqn:E; simpl.
    + apply String.eqb_eq in E. subst k0.
      apply String.eqb_neq in Hk. now rewrite Hk.
    + destruct (String.eqb k k0); auto.
Qed.

Lemma dict_get_Some_keys {V} (k : string) (d : dict V) :
  In k (dict_keys d) -> dict_get k d <> None.
Proof. intros Hin H. now apply dict_get_None_keys in H. Qed.

Lemma connected_set (n : string) (a a' : SubAgent) (c : A2AClient)
  (d : dict SubAgent) :
  dict_get n d = Some a -> _client a = None -> _client a' = Some c ->
  connected (dict_set n a' d) = S (connected d).
Proof.
  unfold connected. intros Ha Hnone Hsome.
  induction d as [|[k v] d IH]; simpl in *; [discriminate|].
  destruct (String.eqb n k) eqn:E.
  - inversion Ha; subst. simpl. now rewrite Hnone, Hsome.
  - simpl. destruct (_client v); simpl; rewrite IH; auto.
Qed.

Lemma connected_le (d : dict SubAgent) : connected d <= length d.
Proof. unfold connected. apply filter_length_le. Qed.

Lemma evolves_refl (w : world) : evolves w w.
Proof.
  unfold evolves. split; [reflexivity|]. split; [|split; [|split]]; auto.
  - intros n a Ha. exists a. auto.
  - exists []. now rewrite app_nil_r.
Qed.

Lemma evolves_trans (w1 w2 w3 : world) :
  evolves w1 w2 -> evolves w2 w3 -> evolves w1 w3.
Proof.
  intros (Hk1 & Ha1 & [i1 Hi1] & Hc1 & Ho1) (Hk2 & Ha2 & [i2 Hi2] & Hc2 & Ho2).
  unfold evolves. split; [congruence|]. split; [|split; [|split]].
  - intros n a Ha. destruct (Ha1 n a Ha) as (a' & Ha' & Hn & Hu & Hcl & Hcd).
    destruct (Ha2 n a' Ha') as (a'' & Ha'' & Hn' & Hu' & Hcl' & Hcd').
    exists a''. repeat split; auto; congruence.
  - exists (i1 ++ i2). now rewrite Hi2, Hi1, app_assoc.
  - lia.
  - auto.
Qed.

(** A step that leaves the agents and the count of clients alone. *)
Lemma evolves_same_agents (w w' : world) :
  sub_agents w' = sub_agents w ->
  clients_made w' = clients_made w ->
  (exists invs, invocations w' = invocations w ++ invs) ->
  evolves w w'.
Proof.
  intros Hs Hc Hi. unfold evolves, clients_ok, client_of.
  rewrite Hs, Hc. split; [reflexivity|]. split; [|split; [|split]]; auto.
  intros n a Ha. exists a. auto.
Qed.

Lemma preserves_ret {A} (a : A) : preserves (ret a).
Proof. intros w. apply evolves_refl. Qed.

Lemma preserves_raise {A} (e : exn) : preserves (@raise A e).
Proof. intros w. apply evolves_refl. Qed.

Lemma preserves_bind {A B} (m : M A) (k : A -> M B) :
  preserves m -> (forall a, preserves (k a)) -> preserves (bind m k).
Proof.
  intros Hm Hk w. unfold bind. specialize (Hm w).
  destruct (m w) as [[a|e] w1]; simpl in *; auto.
  eapply evolves_trans; [exact Hm | apply Hk].
Qed.

Lemma preserves_try_except {A} (body : M A) (handler : exn -> M A) :
  preserves body -> (forall e, preserves (handler e)) ->
  preserves (try_except body handler).
Proof.
  intros Hb Hh w. unfold try_except. specialize (Hb w).
  destruct (body w) as [[a|e] w1]; simpl in *; auto.
  destruct (is_Exception e); simpl; auto.
  eapply evolves_trans; [exact Hb | apply Hh].
Qed.

Lemma preserves_enqueue_event (e : event) : preserves (enqueue_event e).
Proof.
  intros w. apply evolves_same_agents; simpl; auto.
  exists []. now rewrite app_nil_r.
Qed.

Lemma preserves_the_agent (env : Env) (n : string) :
  preserves (the_agent env n).
Proof.
  intros w. unfold the_agent.
  destruct (dict_get n (sub_agents w)); apply evolves_refl.
Qed.

Lemma preserves_forward_events (env : Env) (c : A2AClient) (i : string) :
  preserves (forward_events env c i).
Proof.
  intros w. rewrite forward_events_eq.
  apply evolves_same_agents; simpl; eauto.
Qed.

(** The client that [get_client] stores is new: built for the agent's URL,
    numbered after all the clients made before. *)
Lemma preserves_get_client (env : Env) (n : string) :
  preserves (get_client env n).
Proof.
  intros w. unfold get_client, bind, the_agent.
  destruct (dict_get n (sub_agents w)) as [a|] eqn:Ha; simpl;
    [|apply evolves_refl].
  destruct (_client a) as [c0|] eqn:Hc; simpl; [apply evolves_refl|].
  unfold new_A2AClient.
  destruct (A2AClient_init env (url a)); simpl; [apply evolves_refl|].
  unfold set_client; simpl. rewrite Ha; simpl.
  set (c := mkClient (clients_made w) (url a)).
  set (a' := mkSubAgent (name a) (url a) (description a) (Some c) (_card a)).
  assert (Hget : forall m,
            dict_get m (dict_set n a' (sub_agents w)) =
              if String.eqb m n then Some a' else dict_get m (sub_agents w)).
  { intros m. destruct (String.eqb m n) eqn:E.
    - apply String.eqb_eq in E. subst. apply dict_get_set_same.
    - apply String.eqb_neq in E. now apply dict_get_set_other. }
  unfold evolves; simpl. split; [|split; [|split; [|split]]].
  - apply dict_keys_set_present. congruence.
  - intros m a0 Hm. rewrite Hget.
    destruct (String.eqb m n) eqn:E.
    + apply String.eqb_eq in E. subst m.
      assert (a0 = a) by congruence. subst a0.
      exists a'. repeat split; auto. intros c1 Hc1. congruence.
    + exists a0. auto.
  - exists []. now rewrite app_nil_r.
  - lia.
  - intros (H1 & H2 & H3). unfold clients_ok, client_of; simpl.
    split; [|split].
    + intros m a1 c1. rewrite Hget.
      destruct (String.eqb m n) eqn:E.
      * intros Ha1 Hc1. inversion Ha1; subst a1. simpl in Hc1.
        inversion Hc1; subst c1. simpl. auto.
      * intros Ha1 Hc1. destruct (H1 m a1 c1 Ha1 Hc1). split; auto.
    + assert (Hold : forall m c1,
                String.eqb m n = false ->
                match dict_get m (sub_agents w) with
                | Some a1 => _client a1
                | None => None
                end = Some c1 -> client_id c1 < clients_made w).
      { intros m c1 _ Hm.
        destruct (dict_get m (sub_agents w)) as [a1|] eqn:Ha1;
          [|discriminate].
        now destruct (H1 m a1 c1 Ha1 Hm). }
      intros n1 n2 c1. rewrite !Hget.
      destruct (String.eqb n1 n) eqn:E1; destruct (String.eqb n2 n) eqn:E2.
      * apply String.eqb_eq in E1, E2. congruence.
      * simpl. intros Hc1 Hc2. inversion Hc1; subst c1.
        apply (Hold n2 c E2) in Hc2. simpl in Hc2. lia.
      * simpl. intros Hc1 Hc2. inversion Hc2; subst c1.
        apply (Hold n1 c E1) in Hc1. simpl in Hc1. lia.
      * apply H2.
    + rewrite H3. symmetry.
      apply (connected_set n a a' c); auto.
Qed.

Lemma preserves_execute_task (env : Env) (n i : string) :
  preserves (execute_task env n i).
Proof.
  unfold execute_task. apply preserves_bind; [apply preserves_get_client|].
  intros c. apply preserves_bind; [apply preserves_forward_events|].
  intros _. apply preserves_ret.
Qed.

Lemma preserves_enqueue_all (l : list event) : preserves (enqueue_all l).
Proof.
  intros w. rewrite enqueue_all_eq.
  apply evolves_same_agents; simpl; auto.
  exists []. now rewrite app_nil_r.
Qed.

Lemma preserves_sequential_loop (env : Env) (self : Methods)
  (names : list string) (msg : string) :
  forall results, preserves (sequential_loop env self names msg results).
Proof.
  induction names as [|n rest IH]; intros results; cbn [sequential_loop].
  - apply preserves_ret.
  - apply preserves_bind; [apply preserves_the_agent|]. intros a.
    apply preserves_bind; [apply preserves_enqueue_event|]. intros _.
    apply preserves_bind; [apply preserves_execute_task|]. intros _.
    apply IH.
Qed.

Lemma preserves_sequential (env : Env) (self : Methods) (msg : string) :
  preserves (_sequential_orchestration env self msg).
Proof.
  intros w. unfold _sequential_orchestration.
  refine (preserves_bind _ _ _ _ w).
  - apply preserves_sequential_loop.
  - intros results. apply preserves_ret.
Qed.

Lemma preserves_conditional_loop (env : Env) (self : Methods)
  (selected : list string) (msg : string) :
  forall results, preserves (conditional_loop env self selected msg results).
Proof.
  induction selected as [|n rest IH]; intros results; cbn [conditional_loop].
  - apply preserves_ret.
  - intros w. destruct (negb (dict_contains n (sub_agents w))); [apply IH|].
    refine (preserves_bind _ _ _ _ w); [apply preserves_the_agent|].
    intros a.
    apply preserves_bind; [apply preserves_enqueue_event|]. intros _.
    apply preserves_bind; [apply preserves_execute_task|]. intros _.
    destruct (should_stop_execution self (results ++ [n]));
      [apply preserves_ret | apply IH].
Qed.

Lemma preserves_conditional (env : Env) (self : Methods) (msg : string) :
  preserves (_conditional_orchestration env self msg).
Proof.
  intros w. unfold _conditional_orchestration.
  refine (preserves_bind _ _ _ _ w).
  - apply preserves_conditional_loop.
  - intros results. apply preserves_ret.
Qed.

Lemma preserves_iterative_loop (self : Methods) (rounds : list nat)
  (cur : string) :
  forall iteration, preserves (iterative_loop self rounds cur iteration).
Proof.
  induction rounds as [|i rest IH]; intros iteration; cbn [iterative_loop].
  - apply preserves_ret.
  - do 3 (apply preserves_bind; [apply preserves_enqueue_event|]; intros _).
    destruct (is_result_satisfactory self cur);
      [apply preserves_ret | apply IH].
Qed.

Lemma preserves_iterative (self : Methods) (msg : string) :
  preserves (_iterative_orchestration self msg).
Proof.
  unfold _iterative_orchestration.
  apply preserves_bind; [apply preserves_iterative_loop|].
  intros [i|]; [apply preserves_ret | apply preserves_raise].
Qed.

Lemma preserves_run_task (env : Env) (task : string * string) :
  preserves (run_task env task).
Proof.
  intros w. unfold run_task.
  set (w0 := mkWorld [] (sub_agents w) (clients_made w) (invocations w)).
  pose proof (preserves_execute_task env (fst task) (snd task) w0) as H.
  destruct (execute_task env (fst task) (snd task) w0) as [r w1].
  simpl in *.
  eapply evolves_trans; [|eapply evolves_trans; [exact H|]].
  - apply evolves_same_agents; simpl; auto.
    exists []. now rewrite app_nil_r.
  - apply evolves_same_agents; simpl; auto.
    exists []. now rewrite app_nil_r.
Qed.

Lemma preserves_run_tasks (env : Env) (tasks : list (string * string)) :
  preserves (run_tasks env tasks).
Proof.
  induction tasks as [|task rest IH]; cbn [run_tasks].
  - apply preserves_ret.
  - apply preserves_bind; [apply preserves_run_task|]. intros r.
    apply preserves_bind; [apply IH|]. intros rs. apply preserves_ret.
Qed.

Lemma preserves_parallel (env : Env) (schedule : list nat) (msg : string) :
  preserves (_parallel_orchestration env schedule msg).
Proof.
  unfold _parallel_orchestration.
  apply preserves_bind; [apply preserves_enqueue_event|]. intros _ w.
  refine (preserves_bind _ _ _ _ w).
  - unfold gather.
    apply preserves_bind; [apply preserves_run_tasks|]. intros rs.
    apply preserves_bind; [apply preserves_enqueue_all|]. intros _.
    apply preserves_ret.
  - intros results. destruct (exceptions_of results);
      [apply preserves_ret | apply preserves_raise].
Qed.

Lemma preserves_pattern (env : Env) (self : Methods) (p : pattern)
  (msg : string) :
  preserves (orchestrate_pattern env self p msg).
Proof.
  destruct p; simpl.
  - apply preserves_sequential.
  - apply preserves_parallel.
  - apply preserves_conditional.
  - apply preserves_iterative.
Qed.

Lemma preserves_execute_with (orchestrate : string -> M string)
  (msg : string) :
  preserves (orchestrate msg) -> preserves (execute_with orchestrate msg).
Proof.
  intros H. unfold execute_with.
  apply preserves_bind; [apply preserves_enqueue_event|]. intros _.
  apply preserves_try_except.
  - apply preserves_bind; [exact H|]. intros result.
    apply preserves_bind; [apply preserves_enqueue_event|]. intros _.
    apply preserves_enqueue_event.
  - intros e. apply preserves_enqueue_event.
Qed.

Lemma evolves_after_runs (env : Env) (self : Methods)
  (runs : list (pattern * string)) :
  forall w, evolves w (after_runs env self runs w).
Proof.
  unfold after_runs.
  induction runs as [|run rest IH]; intros w; simpl.
  - apply evolves_refl.
  - eapply evolves_trans; [|apply IH].
    apply preserves_execute_with, preserves_pattern.
Qed.

(** ** The freshly built orchestrator *)

Lemma OrchestratorExecutor_init_get (urls : dict string) (n : string) :
  dict_get n (OrchestratorExecutor_init urls)
  = option_map (SubAgent_init n) (dict_get n urls).
Proof.
  unfold OrchestratorExecutor_init.
  induction urls as [|[k u] urls IH]; simpl; [reflexivity|].
  destruct (String.eqb n k) eqn:E; [|exact IH].
  apply String.eqb_eq in E. now subst.
Qed.

Lemma OrchestratorExecutor_init_keys (urls : dict string) :
  dict_keys (OrchestratorExecutor_init urls) = dict_keys urls.
Proof.
  unfold OrchestratorExecutor_init, dict_keys. rewrite map_map. reflexivity.
Qed.

Lemma connected_init (urls : dict string) :
  connected (OrchestratorExecutor_init urls) = 0.
Proof.
  unfold connected, OrchestratorExecutor_init.
  induction urls as [|[k u] urls IH]; simpl; auto.
Qed.

Lemma clients_ok_initial (urls : dict string) :
  clients_ok (initial_world urls).
Proof.
  assert (Hnone : forall n a,
            dict_get n (OrchestratorExecutor_init urls) = Some a ->
            _client a = None).
  { intros n a. rewrite OrchestratorExecutor_init_get.
    destruct (dict_get n urls); simpl; intros H; inversion H; reflexivity. }
  unfold clients_ok, client_of; simpl. split; [|split].
  - intros n a c Ha Hc. rewrite (Hnone n a Ha) in Hc. discriminate.
  - intros n1 n2 c H1.
    destruct (dict_get n1 (OrchestratorExecutor_init urls)) as [a|] eqn:Ha;
      [|discriminate].
    rewrite (Hnone n1 a Ha) in H1. discriminate.
  - now rewrite connected_init.
Qed.

(** X1. An orchestrator built by [__init__] holds one handle per
    configured name, in the configured order: the handle found under a name
    has that name and the URL configured for it, and neither client nor
    card; a name that is not configured has no handle. *)
Theorem init_builds_one_handle_per_name (urls : dict string) (n : string) :
  dict_keys (OrchestratorExecutor_init urls) = dict_keys urls
  /\ dict_get n (OrchestratorExecutor_init urls)
     = match dict_get n urls with
       | Some u => Some (mkSubAgent n u "" None None)
       | None => None
       end.
Proof.
  split; [apply OrchestratorExecutor_init_keys|].
  rewrite OrchestratorExecutor_init_get. now destruct (dict_get n urls).
Qed.

(** X2. However many tasks an executor handles, with whatever pattern and
    whatever the sub-agents do, its clients stay in order: each agent's
    client was built for that agent's URL, no two agents share a client,
    every client ever constructed is held by an agent, so that never more
    clients are constructed than agents are configured, and the agents
    keep their names. *)
Theorem clients_stay_in_order (env : Env) (self : Methods)
  (runs : list (pattern * string)) (urls : dict string) :
  let w := after_runs env self runs (initial_world urls) in
  clients_ok w
  /\ clients_made w <= length urls
  /\ dict_keys (sub_agents w) = dict_keys urls.
Proof.
  intros w.
  destruct (evolves_after_runs env self runs (initial_world urls))
    as (Hk & _ & _ & _ & Hok).
  fold w in Hk, Hok.
  assert (Hkeys : dict_keys (sub_agents w) = dict_keys urls).
  { rewrite Hk. apply OrchestratorExecutor_init_keys. }
  pose proof (Hok (clients_ok_initial urls)) as H.
  split; [exact H|]. split; [|exact Hkeys].
  destruct H as (_ & _ & ->).
  rewrite (connected_le (sub_agents w)).
  unfold dict_keys in Hkeys.
  rewrite <- (length_map fst (sub_agents w)), Hkeys, length_map. lia.
Qed.

(** ** The calls of the sequential pattern *)

Lemma execute_task_eq (env : Env) (n i : string) (w : world) :
  execute_task env n i w =
    match get_client env n w with
    | (Return c, w0) =>
        (match snd (client_execute_task env c i) with
         | None => Return true
         | Some e => Raise e
         end,
         mkWorld (event_queue w0 ++ fst (client_execute_task env c i))
                 (sub_agents w0) (clients_made w0)
                 (invocations w0 ++ [(c, i)]))
    | (Raise e, w0) => (Raise e, w0)
    end.
Proof.
  unfold execute_task, bind.
  destruct (get_client env n w) as [[c|e] w0]; [|reflexivity].
  rewrite forward_events_eq.
  destruct (snd (client_execute_task env c i)); reflexivity.
Qed.

(** [get_client] raises only when the constructor does (the name being
    configured), and then changes nothing. *)
Lemma get_client_raises (env : Env) (n : string) (w w0 : world) (e : exn) :
  get_client env n w = (Raise e, w0) ->
  w0 = w
  /\ ((dict_get n (sub_agents w) = None /\ e = KeyError env n)
      \/ exists a,
           dict_get n (sub_agents w) = Some a /\ _client a = None
           /\ A2AClient_init env (url a) = Some e).
Proof.
  unfold get_client, bind, the_agent.
  destruct (dict_get n (sub_agents w)) as [a|] eqn:Ha.
  - destruct (_client a) as [c|] eqn:Hc; [discriminate|].
    unfold new_A2AClient.
    destruct (A2AClient_init env (url a)) as [e'|] eqn:Hi.
    + intros H; inversion H; subst. split; auto. right. eauto.
    + unfold set_client; simpl. rewrite Ha. discriminate.
  - intros H; inversion H; subst. auto.
Qed.

Lemma client_of_stable (w w' : world) (n : string) (c : A2AClient) :
  evolves w w' -> client_of w n = Some c -> client_of w' n = Some c.
Proof.
  intros (_ & Ha & _) H. unfold client_of in *.
  destruct (dict_get n (sub_agents w)) as [a|] eqn:E; [|discriminate].
  destruct (Ha n a E) as (a' & -> & _ & _ & Hc & _). auto.
Qed.

(** The agent stored under a name keeps its [name] attribute. *)
Lemma delegation_block_stable (env : Env) (w w' : world)
  (nci : string * (A2AClient * string)) :
  evolves w w' -> delegation_block env w' nci = delegation_block env w nci.
Proof.
  intros (Hk & Ha & _). unfold delegation_block.
  destruct (dict_get (fst nci) (sub_agents w)) as [a|] eqn:E.
  - destruct (Ha _ a E) as (a' & -> & Hn & _).
    unfold delegating_event. now rewrite Hn.
  - apply dict_get_None_keys in E. rewrite <- Hk in E.
    apply dict_get_None_keys in E. now rewrite E.
Qed.

(** What one run of the loop over [names] calls: every call but the last
    went through; the N-th call used the client that the N-th agent holds
    afterwards; a run that raises does so because its last call raised, or
    because the constructor of the next agent's client did. *)
Lemma sequential_loop_calls (env : Env) (self : Methods)
  (names : list string) (msg : string) :
  forall (results : dict string) (w : world),
    incl names (dict_keys (sub_agents w)) ->
    exists invs,
      let run := sequential_loop env self names msg results w in
      invocations (snd run) = invocations w ++ invs
      /\ Forall (completed env) (removelast invs)
      /\ (forall N c i,
            nth_error invs N = Some (c, i) ->
            exists n, nth_error names N = Some n
                      /\ client_of (snd run) n = Some c)
      /\ (forall r, fst run = Return r -> Forall (completed env) invs)
      /\ (forall e,
            fst run = Raise e ->
            (exists invs' c i,
               invs = invs' ++ [(c, i)]
               /\ snd (client_execute_task env c i) = Some e)
            \/ (Forall (completed env) invs
                /\ exists n a,
                     nth_error names (length invs) = Some n
                     /\ dict_get n (sub_agents (snd run)) = Some a
                     /\ _client a = None
                     /\ A2AClient_init env (url a) = Some e))
      /\ ((forall u, A2AClient_init env u = None) ->
          event_queue (snd run)
          = event_queue w
              ++ concat (map (delegation_block env w) (combine names invs))).
Proof.
  induction names as [|n rest IH]; intros results w Hincl.
  - exists []. simpl. rewrite !app_nil_r.
    split; [reflexivity|]. split; [constructor|]. split; [|split; [|split]].
    + intros N c i H. destruct N; discriminate.
    + constructor.
    + discriminate.
    + reflexivity.
  - assert (Hn : dict_get n (sub_agents w) <> None).
    { apply dict_get_Some_keys, Hincl. now left. }
    rewrite sequential_loop_cons.
    destruct (dict_get n (sub_agents w)) as [a|] eqn:Ha; [|congruence].
    set (w0 := snd (enqueue_event (delegating_event a) w)).
    set (i0 := build_instruction_for_agent self n msg results).
    rewrite execute_task_eq.
    pose proof (get_client_frame env n w0) as (Hq & Hi & Hk).
    destruct (get_client env n w0) as [[c|e] w1] eqn:Hg; simpl in Hq, Hi, Hk.
    + (* the client is there: the call is made *)
      set (w2 := mkWorld
                   (event_queue w1 ++ fst (client_execute_task env c i0))
                   (sub_agents w1) (clients_made w1)
                   (invocations w1 ++ [(c, i0)])).
      assert (Hc2 : client_of w2 n = Some c).
      { destruct (get_client_stored env n w0 w1 c Hg) as (a1 & Ha1 & Hc1).
        unfold client_of, w2; simpl. now rewrite Ha1. }
      assert (Hblock : delegation_block env w (n, (c, i0))
                       = delegating_event a
                           :: fst (client_execute_task env c i0)).
      { unfold delegation_block; simpl. now rewrite Ha. }
      destruct (snd (client_execute_task env c i0)) as [e|] eqn:Hs.
      * exists [(c, i0)]. cbv zeta. simpl fst. simpl snd.
        split; [unfold w2; simpl; now rewrite Hi|].
        split; [constructor|]. split; [|split; [|split]].
        -- intros N c' i H. destruct N as [|N]; [|destruct N; discriminate].
           inversion H; subst. exists n. auto.
        -- discriminate.
        -- intros e' H. inversion H; subst. left. exists [], c, i0. auto.
        -- intros _. cbn [combine map concat].
           rewrite combine_nil. cbn [map concat]. rewrite Hblock, app_nil_r.
           unfold w2; simpl.
           rewrite Hq. unfold w0; simpl. now rewrite <- app_assoc.
      * assert (Hincl2 : incl rest (dict_keys (sub_agents w2))).
        { unfold w2; simpl. rewrite Hk. unfold w0; simpl.
          intros x Hx. apply Hincl. now right. }
        destruct (IH (dict_set n "completed" results) w2 Hincl2)
          as (invs & Hinv & Hrem & Hnth & Hret & Hraise & Hqueue).
        cbv zeta in Hinv, Hnth, Hret, Hraise, Hqueue.
        set (run := sequential_loop env self rest msg
                      (dict_set n "completed" results) w2) in *.
        assert (Hev : evolves w2 (snd run))
          by apply preserves_sequential_loop.
        assert (Hev0 : evolves w w2).
        { eapply evolves_trans;
            [apply (preserves_enqueue_event (delegating_event a) w)|].
          fold w0. eapply evolves_trans;
            [apply (preserves_get_client env n w0)|].
          rewrite Hg. simpl. apply evolves_same_agents; simpl; eauto. }
        exists ((c, i0) :: invs). cbv zeta.
        split; [|split; [|split; [|split; [|split]]]].
        -- rewrite Hinv. unfold w2; simpl. rewrite Hi. unfold w0; simpl.
           now rewrite <- app_assoc.
        -- destruct invs as [|ci invs]; [constructor|].
           change (removelast ((c, i0) :: ci :: invs))
             with ((c, i0) :: removelast (ci :: invs)).
           constructor; [exact Hs | exact Hrem].
        -- intros N c' i H. destruct N as [|N]; simpl in H.
           ++ inversion H; subst. exists n. split; [reflexivity|].
              eapply client_of_stable; eauto.
           ++ destruct (Hnth N c' i H) as (n' & Hn' & Hc'). exists n'. auto.
        -- intros r H. constructor; [exact Hs | eauto].
        -- intros e H. destruct (Hraise e H)
             as [(invs' & c' & i' & -> & He) | (Hall & n' & a' & Hn' & Ha' & Hc' & Hi')].
           ++ left. exists ((c, i0) :: invs'), c', i'. auto.
           ++ right. split; [constructor; auto|].
              exists n', a'. simpl. auto.
        -- intros Hinit. rewrite (Hqueue Hinit). cbn [combine map concat].
           rewrite Hblock. unfold w2 at 1; simpl.
           rewrite Hq. unfold w0; simpl. rewrite <- !app_assoc. simpl.
           do 3 f_equal.
           replace (map (delegation_block env w2) (combine rest invs))
             with (map (delegation_block env w) (combine rest invs));
             [reflexivity|].
           apply map_ext. intros x. symmetry.
           now apply delegation_block_stable.
    + (* the constructor raised *)
      destruct (get_client_raises env n w0 w1 e Hg) as [-> Hcase].
      exists []. cbv zeta. simpl fst. simpl snd. rewrite !app_nil_r.
      split; [reflexivity|]. split; [constructor|]. split; [|split; [|split]].
      * intros N c i H. destruct N; discriminate.
      * discriminate.
      * intros e' H. inversion H; subst. right. split; [constructor|].
        destruct Hcase as [[Hnone _] | (a1 & Ha1 & Hc1 & Hi1)].
        -- unfold w0 in Hnone; simpl in Hnone. congruence.
        -- exists n, a1. simpl. auto.
      * intros Hinit. exfalso.
        destruct Hcase as [[Hnone _] | (a1 & Ha1 & Hc1 & Hi1)].
        -- unfold w0 in Hnone; simpl in Hnone. congruence.
        -- rewrite Hinit in Hi1. discriminate.
Qed.

Lemma sequential_orchestration_fst_snd (env : Env) (self : Methods)
  (msg : string) (w : world) :
  let loop := sequential_loop env self (dict_keys (sub_agents w)) msg [] w in
  let run := _sequential_orchestration env self msg w in
  snd run = snd loop
  /\ (forall answer, fst run = Return answer -> exists r, fst loop = Return r)
  /\ (forall e, fst run = Raise e -> fst loop = Raise e).
Proof.
  cbv zeta. rewrite sequential_orchestration_eq.
  destruct (sequential_loop env self (dict_keys (sub_agents w)) msg [] w)
    as [[r|e] w']; simpl.
  - split; [reflexivity|]. split; [intros; exists r; reflexivity|].
    intros e H. discriminate.
  - split; [reflexivity|]. split; [intros a H; discriminate|].
    intros e0 H. inversion H. reflexivity.
Qed.

(** X3. The sequential pattern stops at the first failure: in every run,
    each call except possibly the last went through; a run that returns
    made one call per configured agent, all of which went through; a run
    that raises [e] either made its last call to the agent whose stream
    raised [e], or stopped before calling the next agent because the
    constructor of that agent's client raised [e].  No agent after the
    failing one is called. *)
Theorem sequential_stops_at_first_failure (env : Env) (self : Methods)
  (msg : string) (w : world) (invs : list (A2AClient * string)) :
  let run := _sequential_orchestration env self msg w in
  let names := dict_keys (sub_agents w) in
  invocations (snd run) = invocations w ++ invs ->
  Forall (completed env) (removelast invs)
  /\ length invs <= length names
  /\ (forall answer,
        fst run = Return answer ->
        Forall (completed env) invs /\ length invs = length names)
  /\ (forall e,
        fst run = Raise e ->
        (exists invs' c i,
           invs = invs' ++ [(c, i)]
           /\ snd (client_execute_task env c i) = Some e)
        \/ (exists n a,
              nth_error names (length invs) = Some n
              /\ dict_get n (sub_agents (snd run)) = Some a
              /\ _client a = None
              /\ A2AClient_init env (url a) = Some e)).
Proof.
  intros run names Hinv.
  destruct (sequential_orchestration_fst_snd env self msg w)
    as (Hsnd & Hret & Hraise).
  fold run names in Hsnd, Hret, Hraise.
  destruct (sequential_loop_calls env self names msg [] w (incl_refl _))
    as (invs1 & Hi1 & Hrem & _ & Hdone & Hfail & _).
  destruct (sequential_loop_spec env self names msg [] w)
    as (evs & invs2 & (_ & Hi2 & _) & _ & Hnth & Hlen).
  cbv zeta in Hi1, Hdone, Hfail.
  rewrite <- Hsnd in Hi1, Hi2, Hfail.
  assert (invs1 = invs) as ->
    by (rewrite Hinv in Hi1; now apply app_inv_head in Hi1).
  assert (invs2 = invs) as ->
    by (rewrite Hinv in Hi2; now apply app_inv_head in Hi2).
  split; [exact Hrem|]. split; [|split].
  - destruct (Nat.le_gt_cases (length invs) (length names)) as [|Hgt];
      [assumption|].
    destruct (nth_error invs (length names)) as [[c i]|] eqn:E.
    + destruct (Hnth _ c i E) as (n & Hn & _).
      assert (length names < length names)
        by (apply nth_error_Some; congruence).
      lia.
    + apply nth_error_None in E. lia.
  - intros answer H. destruct (Hret answer H) as [r Hr].
    split; [eapply Hdone; eauto|]. now destruct (Hlen r Hr).
  - intros e H. destruct (Hfail e (Hraise e H)) as [H1 | (_ & H2)]; auto.
Qed.

(** X4. When no client constructor raises, the events that a run of the
    sequential pattern adds to the queue are, agent after agent in the
    configured order, the announcement "--- Delegating to <name> ---"
    followed by the events forwarded from that agent's call (up to the
    point where its stream raised, for the last one), and nothing else. *)
Theorem sequential_stream_is_blocks (env : Env) (self : Methods)
  (msg : string) (w : world) (invs : list (A2AClient * string)) :
  let run := _sequential_orchestration env self msg w in
  (forall u, A2AClient_init env u = None) ->
  invocations (snd run) = invocations w ++ invs ->
  event_queue (snd run)
  = event_queue w
      ++ concat (map (delegation_block env w)
                     (combine (dict_keys (sub_agents w)) invs)).
Proof.
  intros run Hinit Hinv.
  destruct (sequential_orchestration_fst_snd env self msg w) as (Hsnd & _).
  fold run in Hsnd.
  destruct (sequential_loop_calls env self (dict_keys (sub_agents w)) msg []
              w (incl_refl _))
    as (invs1 & Hi1 & _ & _ & _ & _ & Hq).
  cbv zeta in Hi1, Hq. rewrite <- Hsnd in Hi1, Hq.
  assert (invs1 = invs) as ->
    by (rewrite Hinv in Hi1; now apply app_inv_head in Hi1).
  auto.
Qed.

(** X5. Each agent is called through its own client, at its own address:
    if the clients are in order before a run of the sequential pattern, the
    N-th call of the run goes through the client that the N-th configured
    agent holds after the run, and that client was built for the URL
    configured for this agent. *)
Theorem sequential_calls_agents_at_their_urls (env : Env) (self : Methods)
  (msg : string) (w : world) (invs : list (A2AClient * string))
  (N : nat) (c : A2AClient) (i : string) :
  let run := _sequential_orchestration env self msg w in
  clients_ok w ->
  invocations (snd run) = invocations w ++ invs ->
  nth_error invs N = Some (c, i) ->
  exists n a,
    nth_error (dict_keys (sub_agents w)) N = Some n
    /\ dict_get n (sub_agents w) = Some a
    /\ client_of (snd run) n = Some c
    /\ client_url c = url a.
Proof.
  intros run Hok Hinv HN.
  destruct (sequential_orchestration_fst_snd env self msg w) as (Hsnd & _).
  fold run in Hsnd.
  destruct (sequential_loop_calls env self (dict_keys (sub_agents w)) msg []
              w (incl_refl _))
    as (invs1 & Hi1 & _ & Hnth & _).
  cbv zeta in Hi1, Hnth. rewrite <- Hsnd in Hi1, Hnth.
  assert (invs1 = invs) as ->
    by (rewrite Hinv in Hi1; now apply app_inv_head in Hi1).
  destruct (Hnth N c i HN) as (n & Hn & Hc).
  assert (Hev : evolves w (snd run)) by apply preserves_sequential.
  destruct Hev as (_ & Hag & _ & _ & Hok').
  assert (Hin : dict_get n (sub_agents w) <> None).
  { apply dict_get_Some_keys. eapply nth_error_In; eauto. }
  destruct (dict_get n (sub_agents w)) as [a|] eqn:Ha; [|congruence].
  destruct (Hag n a Ha) as (a' & Ha' & _ & Hu & _).
  exists n, a. repeat split; auto.
  destruct (Hok' Hok) as (H1 & _).
  unfold client_of in Hc. rewrite Ha' in Hc.
  destruct (H1 n a' c Ha' Hc). congruence.
Qed.

(** Agents that all hold a client are not touched by the loop, and no
    client is constructed. *)
Lemma sequential_loop_connected (env : Env) (self : Methods)
  (names : list string) (msg : string) :
  forall (results : dict string) (w : world),
    (forall n, In n names -> client_of w n <> None) ->
    let w' := snd (sequential_loop env self names msg results w) in
    sub_agents w' = sub_agents w /\ clients_made w' = clients_made w.
Proof.
  induction names as [|n rest IH]; intros results w Hall; cbv zeta.
  - simpl. auto.
  - rewrite sequential_loop_cons.
    assert (Hn : client_of w n <> None) by (apply Hall; now left).
    unfold client_of in Hn.
    destruct (dict_get n (sub_agents w)) as [a|] eqn:Ha; [|congruence].
    destruct (_client a) as [c|] eqn:Hc; [|congruence].
    rewrite execute_task_eq.
    rewrite (get_client_cached env n _ a c) by (simpl; auto).
    set (w2 := mkWorld _ _ _ _).
    destruct (snd (client_execute_task env c _)); [simpl; auto|].
    destruct (IH (dict_set n "completed" results) w2) as [Hs Hm].
    { intros m Hm. unfold client_of. unfold w2; simpl.
      apply Hall. now right. }
    cbv zeta in Hs, Hm. rewrite Hs, Hm. auto.
Qed.

(** X6. The clients are reused from one run to the next: after a run of
    the sequential pattern that returned, a second run (on any task, with
    any helpers, whatever the environment has become) constructs no client
    and leaves every agent as it is, and each of its calls goes through the
    client its agent already held. *)
Theorem second_sequential_run_reuses_clients (env1 env2 : Env)
  (self1 self2 : Methods) (msg1 msg2 : string) (w : world)
  (answer : string) :
  let w1 := snd (_sequential_orchestration env1 self1 msg1 w) in
  let run2 := _sequential_orchestration env2 self2 msg2 w1 in
  fst (_sequential_orchestration env1 self1 msg1 w) = Return answer ->
  sub_agents (snd run2) = sub_agents w1
  /\ clients_made (snd run2) = clients_made w1
  /\ forall invs N c i,
       invocations (snd run2) = invocations w1 ++ invs ->
       nth_error invs N = Some (c, i) ->
       exists n, nth_error (dict_keys (sub_agents w)) N = Some n
                 /\ client_of w1 n = Some c.
Proof.
  intros w1 run2 Hret.
  set (names := dict_keys (sub_agents w)).
  destruct (sequential_orchestration_fst_snd env1 self1 msg1 w)
    as (Hsnd1 & Hret1 & _).
  fold w1 names in Hsnd1. destruct (Hret1 answer Hret) as [r Hr].
  fold names in Hr.
  assert (Hkeys : dict_keys (sub_agents w1) = names).
  { destruct (preserves_sequential env1 self1 msg1 w) as (Hk & _). exact Hk. }
  assert (Hall : forall n, In n names -> client_of w1 n <> None).
  { destruct (sequential_loop_calls env1 self1 names msg1 [] w (incl_refl _))
      as (invs1 & Hi1 & _ & Hnth & _).
    destruct (sequential_loop_spec env1 self1 names msg1 [] w)
      as (evs & invs1' & (_ & Hi1' & _) & _ & _ & Hlen).
    cbv zeta in Hi1, Hnth. rewrite <- Hsnd1 in Hi1, Hi1', Hnth.
    assert (invs1' = invs1) as ->
      by (rewrite Hi1 in Hi1'; now apply app_inv_head in Hi1').
    destruct (Hlen r Hr) as [_ Hl].
    intros n Hin. apply In_nth_error in Hin. destruct Hin as [N HN].
    assert (HNlt : N < length invs1)
      by (rewrite Hl; apply nth_error_Some; congruence).
    destruct (nth_error invs1 N) as [[c i]|] eqn:E;
      [|apply nth_error_None in E; lia].
    destruct (Hnth N c i E) as (n' & Hn' & Hc).
    assert (n' = n) by congruence. subst. congruence. }
  destruct (sequential_orchestration_fst_snd env2 self2 msg2 w1)
    as (Hsnd2 & _).
  fold run2 in Hsnd2. rewrite Hkeys in Hsnd2.
  destruct (sequential_loop_connected env2 self2 names msg2 [] w1 Hall)
    as [Hs Hm].
  cbv zeta in Hs, Hm. rewrite <- Hsnd2 in Hs, Hm.
  split; [exact Hs|]. split; [exact Hm|].
  intros invs N c i Hinv HN.
  destruct (sequential_loop_calls env2 self2 names msg2 [] w1)
    as (invs2 & Hi2 & _ & Hnth2 & _).
  { rewrite Hkeys. apply incl_refl. }
  cbv zeta in Hi2, Hnth2. rewrite <- Hsnd2 in Hi2, Hnth2.
  assert (invs2 = invs) as ->
    by (rewrite Hinv in Hi2; now apply app_inv_head in Hi2).
  destruct (Hnth2 N c i HN) as (n & Hn & Hc).
  exists n. split; [exact Hn|].
  unfold client_of in *. now rewrite Hs in Hc.
Qed.

(** ** The conditional pattern in general *)

Lemma dict_contains_keys {V} (n : string) (d d' : dict V) :
  dict_keys d' = dict_keys d -> dict_contains n d' = dict_contains n d.
Proof.
  intros Hk. unfold dict_contains.
  destruct (dict_get n d) eqn:E; destruct (dict_get n d') eqn:E'; auto.
  - apply dict_get_None_keys in E'. rewrite Hk in E'.
    apply dict_get_None_keys in E'. congruence.
  - apply dict_get_None_keys in E. rewrite <- Hk in E.
    apply dict_get_None_keys in E. congruence.
Qed.

Lemma get_client_returns (env : Env) (n : string) (w : world) :
  (forall u, A2AClient_init env u = None) ->
  dict_get n (sub_agents w) <> None ->
  exists c w0, get_client env n w = (Return c, w0).
Proof.
  intros Hinit Hn.
  destruct (get_client env n w) as [[c|e] w0] eqn:Hg; [eauto|].
  destruct (get_client_raises env n w w0 e Hg)
    as (_ & [[Hnone _] | (a & _ & _ & Hi)]); [congruence|].
  rewrite Hinit in Hi. discriminate.
Qed.

(** What the loop over a selection does: the agents it ran, added to
    [results], are the first [k] configured names of the selection; it made
    one call for each; it went on as long as the stopping predicate was
    false and stopped as soon as it was true. *)
Lemma conditional_loop_calls (env : Env) (self : Methods)
  (selected : list string) (msg : string) :
  forall (results : list string) (w : world),
    let sel := configured_selection w selected in
    let run := conditional_loop env self selected msg results w in
    exists invs,
      invocations (snd run) = invocations w ++ invs
      /\ (all_complete env -> exists executed, fst run = Return executed)
      /\ forall executed,
           fst run = Return executed ->
           exists k,
             executed = results ++ firstn k sel
             /\ k <= length sel
             /\ length invs = k
             /\ Forall (completed env) invs
             /\ (k = length sel
                 \/ (0 < k
                     /\ should_stop_execution self (results ++ firstn k sel)
                        = true))
             /\ forall j,
                  0 < j < k ->
                  should_stop_execution self (results ++ firstn j sel)
                  = false.
Proof.
  induction selected as [|n rest IH]; intros results w; cbv zeta.
  - exists []. simpl. rewrite app_nil_r. split; [reflexivity|].
    split; [unfold ret; eauto|].
    unfold ret; simpl. intros executed H. inversion H; subst.
    exists 0. simpl. rewrite app_nil_r.
    repeat split; auto. intros j Hj. lia.
  - rewrite conditional_loop_cons. unfold configured_selection.
    cbn [filter].
    assert (Hcont : dict_contains n (sub_agents w)
                    = match dict_get n (sub_agents w) with
                      | Some _ => true
                      | None => false
                      end) by reflexivity.
    rewrite Hcont. clear Hcont.
    destruct (dict_get n (sub_agents w)) as [a|] eqn:Ha; [|apply IH].
    set (w0 := snd (enqueue_event (selected_event a) w)).
    rewrite execute_task_eq.
    pose proof (get_client_frame env n w0) as (Hq & Hi & Hk).
    pose proof (get_client_returns env n w0) as Hgr.
    destruct (get_client env n w0) as [[c|e] w1] eqn:Hg; simpl in Hq, Hi, Hk.
    + set (w2 := mkWorld
                   (event_queue w1 ++ fst (client_execute_task env c msg))
                   (sub_agents w1) (clients_made w1)
                   (invocations w1 ++ [(c, msg)])).
      destruct (snd (client_execute_task env c msg)) as [e|] eqn:Hs.
      * exists [(c, msg)]. simpl.
        split; [unfold w2; simpl; now rewrite Hi|].
        split; [|discriminate].
        intros [_ Hall]. rewrite Hall in Hs. discriminate.
      * assert (Hsel : configured_selection w2 rest
                       = filter (fun n0 => dict_contains n0 (sub_agents w))
                                rest).
        { unfold configured_selection. apply filter_ext. intros x.
          apply dict_contains_keys. unfold w2; simpl. now rewrite Hk. }
        set (sel := filter (fun n0 => dict_contains n0 (sub_agents w)) rest)
          in *.
        destruct (should_stop_execution self (results ++ [n])) eqn:Hstop.
        -- exists [(c, msg)]. simpl.
           split; [unfold w2; simpl; now rewrite Hi|].
           split; [eauto|].
           intros executed H. inversion H; subst. exists 1. simpl.
           split; [reflexivity|]. split; [lia|]. split; [reflexivity|].
           split; [constructor; [exact Hs | constructor]|].
           split; [right; split; [lia | exact Hstop]|].
           intros j Hj. lia.
        -- destruct (IH (results ++ [n]) w2) as (invs & Hinv & Hret & Hrun).
           cbv zeta in Hinv, Hret, Hrun. rewrite Hsel in Hrun.
           exists ((c, msg) :: invs).
           split; [|split].
           ++ rewrite Hinv. unfold w2; simpl. rewrite Hi. unfold w0; simpl.
              now rewrite <- app_assoc.
           ++ exact Hret.
           ++ intros executed H.
              destruct (Hrun executed H)
                as (k & Hex & Hle & Hlen & Hdone & Hend & Hgo).
              exists (S k). cbn [firstn length].
              assert (Happ : forall m,
                        results ++ n :: firstn m sel
                        = (results ++ [n]) ++ firstn m sel)
                by (intros m; now rewrite <- app_assoc).
              rewrite !Happ.
              split; [exact Hex|]. split; [lia|]. split; [simpl; lia|].
              split; [constructor; [exact Hs | exact Hdone]|].
              split.
              ** destruct Hend as [-> | [Hpos Hst]]; [now left|].
                 right. split; [lia | exact Hst].
              ** intros j Hj. destruct j as [|j]; [lia|].
                 cbn [firstn]. rewrite Happ.
                 destruct j as [|j].
                 --- simpl. rewrite app_nil_r. exact Hstop.
                 --- apply Hgo. lia.
    + exists []. simpl. rewrite app_nil_r. split; [now rewrite Hi|].
      split; [|discriminate].
      intros [Hinit _]. destruct Hgr as (c & w0' & Hc); [exact Hinit | |].
      * unfold w0; simpl. congruence.
      * discriminate.
Qed.

(** X7. What the conditional pattern runs, whatever the routing function
    and the stopping predicate: names of the selection that are not
    configured are skipped; the agents run are the first [k] configured
    names of the selection, in the order selected (a name selected twice is
    run twice), with one call each, all of which went through; the run went
    on while the stopping predicate was false on the agents run so far, and
    ended when it became true or the selection was exhausted.  The answer
    lists exactly these agents. *)
Theorem conditional_runs_prefix_of_selection (env : Env) (self : Methods)
  (msg : string) (w : world) (answer : string)
  (invs : list (A2AClient * string)) :
  let run := _conditional_orchestration env self msg w in
  let sel :=
    configured_selection w (select_agents_for_task self (sub_agents w) msg) in
  fst run = Return answer ->
  invocations (snd run) = invocations w ++ invs ->
  exists k,
    answer = ("Executed agents: " ++ join ", " (firstn k sel))%string
    /\ k <= length sel
    /\ length invs = k
    /\ Forall (completed env) invs
    /\ (k = length sel
        \/ (0 < k /\ should_stop_execution self (firstn k sel) = true))
    /\ forall j,
         0 < j < k -> should_stop_execution self (firstn j sel) = false.
Proof.
  intros run sel Hret Hinv. unfold run in *.
  rewrite conditional_orchestration_eq in Hret, Hinv.
  destruct (conditional_loop_calls env self
              (select_agents_for_task self (sub_agents w) msg) msg [] w)
    as (invs' & Hi & _ & Hrun).
  cbv zeta in Hi, Hrun. fold sel in Hrun.
  destruct (conditional_loop env self
              (select_agents_for_task self (sub_agents w) msg) msg [] w)
    as [[executed|e] w'] eqn:Hloop; cbn [fst snd] in Hret, Hinv, Hi, Hrun;
    [|discriminate].
  assert (invs' = invs) as ->
    by (rewrite Hinv in Hi; now apply app_inv_head in Hi).
  destruct (Hrun executed eq_refl)
    as (k & Hex & Hle & Hlen & Hdone & Hend & Hgo).
  cbn [app] in Hex, Hend, Hgo. subst executed.
  injection Hret as <-.
  exists k. split; [reflexivity|]. auto.
Qed.

(** X8. With a stopping predicate that is never true and sub-agents none
    of whose calls raises, the conditional pattern runs every configured
    name of the selection, once for each time it is selected, and returns
    the answer that lists them all. *)
Theorem conditional_runs_whole_selection (env : Env) (self : Methods)
  (msg : string) (w : world) :
  let run := _conditional_orchestration env self msg w in
  let sel :=
    configured_selection w (select_agents_for_task self (sub_agents w) msg) in
  all_complete env ->
  (forall l, should_stop_execution self l = false) ->
  fst run = Return ("Executed agents: " ++ join ", " sel)%string
  /\ exists invs,
       invocations (snd run) = invocations w ++ invs
       /\ length invs = length sel.
Proof.
  intros run sel Hall Hnever. unfold run.
  rewrite conditional_orchestration_eq.
  destruct (conditional_loop_calls env self
              (select_agents_for_task self (sub_agents w) msg) msg [] w)
    as (invs & Hi & Hret & Hrun).
  cbv zeta in Hi, Hret, Hrun. fold sel in Hrun.
  destruct (Hret Hall) as [executed Hex].
  destruct (Hrun executed Hex) as (k & Hk & Hle & Hlen & _ & Hend & _).
  cbn [app] in Hk, Hend.
  assert (k = length sel) as ->.
  { destruct Hend as [|[_ Hst]]; [assumption|].
    rewrite Hnever in Hst. discriminate. }
  rewrite firstn_all in Hk. subst executed.
  destruct (conditional_loop env self
              (select_agents_for_task self (sub_agents w) msg) msg [] w)
    as [[executed|e] w'] eqn:Hloop; cbn [fst snd] in Hex, Hi |- *;
    [|discriminate].
  injection Hex as ->. split; [reflexivity|]. eauto.
Qed.

(** ** The iterative pattern in general *)

(** One round of the loop. *)
Lemma iterative_loop_cons (self : Methods) (i : nat) (rest : list nat)
  (cur : string) (iteration : option nat) (w : world) :
  iterative_loop self (i :: rest) cur iteration w =
    if is_result_satisfactory self cur
    then (Return (Some i),
          mkWorld (event_queue w ++ round_events (i + 1))
                  (sub_agents w) (clients_made w) (invocations w))
    else iterative_loop self rest cur (Some i)
           (mkWorld (event_queue w ++ round_events (i + 1))
                    (sub_agents w) (clients_made w) (invocations w)).
Proof.
  cbn [iterative_loop]. unfold bind, enqueue_event.
  cbn [event_queue sub_agents clients_made invocations].
  unfold round_events. rewrite <- !app_assoc.
  destruct (is_result_satisfactory self cur); reflexivity.
Qed.

(** X9. The iterative pattern tests the original task in every round (it
    never replaces [current_result]), so it runs either one round, when the
    task itself is satisfactory, or all three, never two; it always
    returns, calls no sub-agent and constructs no client. *)
Theorem iterative_one_round_or_three (self : Methods) (msg : string)
  (w : world) :
  _iterative_orchestration self msg w =
    if is_result_satisfactory self msg
    then (Return "Completed after 1 iterations"%string,
          mkWorld (event_queue w ++ round_events 1)
                  (sub_agents w) (clients_made w) (invocations w))
    else (Return "Completed after 3 iterations"%string,
          mkWorld (event_queue w
                     ++ round_events 1 ++ round_events 2 ++ round_events 3)
                  (sub_agents w) (clients_made w) (invocations w)).
Proof.
  unfold _iterative_orchestration, bind. cbn [seq].
  rewrite iterative_loop_cons.
  destruct (is_result_satisfactory self msg) eqn:Hsat; [reflexivity|].
  rewrite iterative_loop_cons, Hsat, iterative_loop_cons, Hsat.
  cbn [iterative_loop Nat.add]. unfold ret.
  cbn [event_queue sub_agents clients_made invocations].
  rewrite <- !app_assoc. reflexivity.
Qed.

(** ** The calls of the parallel pattern *)

(** When no constructor raises, every task makes its call, with its own
    instruction, whatever happens to the calls of the others. *)
Lemma run_tasks_calls (env : Env) (tasks : list (string * string)) :
  forall w : world,
    (forall u, A2AClient_init env u = None) ->
    incl (map fst tasks) (dict_keys (sub_agents w)) ->
    exists rs w' invs,
      run_tasks env tasks w = (Return rs, w')
      /\ invocations w' = invocations w ++ invs
      /\ map snd invs = map snd tasks
      /\ ((forall c i, snd (client_execute_task env c i) = None) ->
          exceptions_of (map snd rs) = []).
Proof.
  induction tasks as [|task rest IH]; intros w Hinit Hincl.
  - exists [], w, []. simpl. unfold ret. rewrite app_nil_r. auto.
  - cbn [run_tasks]. unfold bind at 1. unfold run_task.
    set (w0 := mkWorld [] (sub_agents w) (clients_made w) (invocations w)).
    rewrite execute_task_eq.
    pose proof (get_client_frame env (fst task) w0) as (_ & Hi & Hk).
    destruct (get_client_returns env (fst task) w0 Hinit) as (c & w1 & Hg).
    { apply dict_get_Some_keys. unfold w0; simpl. apply Hincl. now left. }
    rewrite Hg in Hi, Hk |- *. simpl in Hi, Hk.
    set (r := match snd (client_execute_task env c (snd task)) with
              | Some e => Raise e
              | None => Return true
              end).
    cbv beta iota zeta.
    cbn [event_queue sub_agents clients_made invocations].
    set (w2 := mkWorld (event_queue w) (sub_agents w1) (clients_made w1)
                       (invocations w1 ++ [(c, snd task)])).
    destruct (IH w2 Hinit) as (rs & w' & invs & Hrs & Hinv & Hmap & Hok).
    { unfold w2; simpl. rewrite Hk. unfold w0; simpl.
      intros x Hx. apply Hincl. now right. }
    unfold bind. rewrite Hrs. unfold ret.
    eexists _, w', ((c, snd task) :: invs).
    split; [reflexivity|]. split; [|split].
    + rewrite Hinv. unfold w2; simpl. rewrite Hi. unfold w0; simpl.
      now rewrite <- app_assoc.
    + simpl. now rewrite Hmap.
    + intros Hall. simpl. unfold r. rewrite Hall. simpl. auto.
Qed.

Lemma parallel_tasks_names (names : list string) (msg : string) :
  map fst (parallel_tasks names msg) = names.
Proof.
  unfold parallel_tasks. rewrite map_map. simpl. apply map_id.
Qed.

Lemma parallel_run_calls (env : Env) (schedule : list nat) (msg : string)
  (w : world) :
  (forall u, A2AClient_init env u = None) ->
  let run := _parallel_orchestration env schedule msg w in
  exists invs,
    invocations (snd run) = invocations w ++ invs
    /\ map snd invs
       = map snd (parallel_tasks (dict_keys (sub_agents w)) msg)
    /\ ((forall c i, snd (client_execute_task env c i) = None) ->
        fst run
        = Return "All agents completed successfully in parallel!"%string).
Proof.
  intros Hinit. cbv zeta. rewrite parallel_orchestration_eq. cbv zeta.
  set (w0 := snd (enqueue_event parallel_event w)).
  change (dict_keys (sub_agents w0)) with (dict_keys (sub_agents w)).
  set (tasks := parallel_tasks (dict_keys (sub_agents w)) msg).
  destruct (run_tasks_calls env tasks w0 Hinit)
    as (rs & w' & invs & Hrs & Hinv & Hmap & Hok).
  { unfold tasks. rewrite parallel_tasks_names. apply incl_refl. }
  unfold gather, bind. rewrite Hrs, enqueue_all_eq. unfold ret.
  exists invs. split; [|split; [exact Hmap|]].
  - destruct (exceptions_of (map snd rs)); simpl; exact Hinv.
  - intros Hall. rewrite (Hok Hall). reflexivity.
Qed.

(** X10. The parallel pattern calls every configured agent, whatever
    happens to the others: when no client constructor raises, each run
    makes exactly one call per agent, in the configured order in the call
    log, the call to agent [n] carrying the instruction
    "<task> (handled by <n>)", also when some of these calls raise. *)
Theorem parallel_calls_every_agent (env : Env) (schedule : list nat)
  (msg : string) (w : world) :
  (forall u, A2AClient_init env u = None) ->
  exists invs,
    invocations (snd (_parallel_orchestration env schedule msg w))
    = invocations w ++ invs
    /\ map snd invs
       = map (fun n => msg ++ " (handled by " ++ n ++ ")")%string
             (dict_keys (sub_agents w)).
Proof.
  intros Hinit.
  destruct (parallel_run_calls env schedule msg w Hinit)
    as (invs & Hinv & Hmap & _).
  exists invs. split; [exact Hinv|].
  rewrite Hmap. unfold parallel_tasks. now rewrite map_map.
Qed.

(** X11. When no sub-agent call raises, the parallel pattern returns
    "All agents completed successfully in parallel!", for every schedule
    and every set of configured agents (also the empty one). *)
Theorem parallel_succeeds_when_all_complete (env : Env)
  (schedule : list nat) (msg : string) (w : world) :
  all_complete env ->
  fst (_parallel_orchestration env schedule msg w)
  = Return "All agents completed successfully in parallel!"%string.
Proof.
  intros [Hinit Hall].
  destruct (parallel_run_calls env schedule msg w Hinit) as (_ & _ & _ & H).
  auto.
Qed.

(** ** The errors of the parallel pattern *)

Lemma task_result_ext (env : Env) (w w' : world) (task : string * string) :
  sub_agents w' = sub_agents w ->
  task_result env w' task = task_result env w task.
Proof. unfold task_result. now intros ->. Qed.

Lemma task_call_ext (w w' : world) (task : string * string) :
  sub_agents w' = sub_agents w -> task_call w' task = task_call w task.
Proof. unfold task_call, client_of. now intros ->. Qed.








(** ** The agent cards *)

Lemma get_card_cached (env : Env) (gac : A2AClient -> outcome string)
  (n : string) (w : world) (a : SubAgent) (d : string) :
  dict_get n (sub_agents w) = Some a -> _card a = Some d ->
  get_card env gac n w = (Return d, w).
Proof.
  intros Ha Hd. unfold get_card, bind, the_agent. now rewrite Ha, Hd.
Qed.

(** What a successful [get_client] leaves under the name: the same agent,
    now with the client. *)
Lemma get_client_agent (env : Env) (n : string) (w w0 : world)
  (a : SubAgent) (c : A2AClient) :
  dict_get n (sub_agents w) = Some a ->
  get_client env n w = (Return c, w0) ->
  dict_get n (sub_agents w0)
  = Some (mkSubAgent (name a) (url a) (description a) (Some c) (_card a)).
Proof.
  intros Ha. unfold get_client, bind, the_agent. rewrite Ha.
  destruct (_client a) as [c0|] eqn:Hc.
  - unfold ret. intros H; inversion H; subst. rewrite Ha.
    destruct a; simpl in *. now rewrite Hc.
  - unfold new_A2AClient.
    destruct (A2AClient_init env (url a)); [discriminate|].
    unfold set_client; simpl. rewrite Ha. unfold ret.
    intros H; inversion H; subst; simpl. apply dict_get_set_same.
Qed.

(** [get_card] in the case where the card has to be fetched. *)
Lemma get_card_fetch (env : Env) (gac : A2AClient -> outcome string)
  (n : string) (w : world) (a : SubAgent) :
  dict_get n (sub_agents w) = Some a -> _card a = None ->
  get_card env gac n w =
    match get_client env n w with
    | (Return c, w0) =>
        match gac c with
        | Return d =>
            (Return d,
             mkWorld (event_queue w0)
                     (dict_set n
                        (mkSubAgent (name a) (url a) (description a)
                                    (Some c) (Some d))
                        (sub_agents w0))
                     (clients_made w0) (invocations w0))
        | Raise e => (Raise e, w0)
        end
    | (Raise e, w0) => (Raise e, w0)
    end.
Proof.
  intros Ha Hd. unfold get_card. unfold bind at 1. unfold the_agent.
  rewrite Ha, Hd. unfold bind at 1.
  destruct (get_client env n w) as [[c|e] w0] eqn:Hg; [|reflexivity].
  unfold bind at 1. destruct (gac c) as [d|e]; [|reflexivity].
  unfold bind, set_card.
  rewrite (get_client_agent env n w w0 a c Ha Hg). simpl.
  reflexivity.
Qed.

Lemma get_card_stored (env : Env) (gac : A2AClient -> outcome string)
  (n : string) (w w1 : world) (d : string) :
  get_card env gac n w = (Return d, w1) ->
  exists a, dict_get n (sub_agents w1) = Some a /\ _card a = Some d.
Proof.
  destruct (dict_get n (sub_agents w)) as [a|] eqn:Ha.
  - destruct (_card a) as [d0|] eqn:Hd.
    + rewrite (get_card_cached env gac n w a d0 Ha Hd).
      intros H; inversion H; subst. eauto.
    + rewrite (get_card_fetch env gac n w a Ha Hd).
      destruct (get_client env n w) as [[c|e] w0]; [|discriminate].
      destruct (gac c) as [d0|e]; [|discriminate].
      intros H; inversion H; subst; simpl.
      rewrite dict_get_set_same. eauto.
  - unfold get_card, bind, the_agent. rewrite Ha. discriminate.
Qed.

(** X12. [SubAgent.get_card] fetches a card once: after a call that
    returned a card, every later call returns that same card and changes
    nothing, whatever card the remote agent would now send and even if it
    could no longer be reached (the card may be stale). *)
Theorem get_card_memoized (env env' : Env)
  (gac gac' : A2AClient -> outcome string) (n : string) (w w1 : world)
  (d : string) :
  get_card env gac n w = (Return d, w1) ->
  get_card env' gac' n w1 = (Return d, w1).
Proof.
  intros H. destruct (get_card_stored env gac n w w1 d H) as (a & Ha & Hd).
  now apply (get_card_cached env' gac' n w1 a d).
Qed.

(** X13. When fetching the card fails, [get_card] raises the exception of
    the fetch; the client it obtained stays memoized, the card stays
    empty, and the next [get_card] fetches again through that same
    client, constructing none. *)
Theorem get_card_failure_is_retried (env env' : Env)
  (gac gac' : A2AClient -> outcome string) (n : string) (w w0 : world)
  (a : SubAgent) (c : A2AClient) (e : exn) :
  dict_get n (sub_agents w) = Some a -> _card a = None ->
  get_client env n w = (Return c, w0) ->
  gac c = Raise e ->
  get_card env gac n w = (Raise e, w0)
  /\ client_of w0 n = Some c
  /\ fst (get_card env' gac' n w0) = gac' c
  /\ clients_made (snd (get_card env' gac' n w0)) = clients_made w0.
Proof.
  intros Ha Hd Hg He.
  pose proof (get_client_agent env n w w0 a c Ha Hg) as Ha0.
  split; [|split].
  - rewrite (get_card_fetch env gac n w a Ha Hd), Hg, He. reflexivity.
  - unfold client_of. now rewrite Ha0.
  - rewrite (get_card_fetch env' gac' n w0 _ Ha0) by exact Hd.
    rewrite (get_client_cached env' n w0 _ c Ha0) by reflexivity.
    destruct (gac' c); auto.
Qed.

(** ** The LLM-powered orchestrator *)

Lemma get_card_frame (env : Env) (gac : A2AClient -> outcome string)
  (n : string) (w : world) :
  let w' := snd (get_card env gac n w) in
  event_queue w' = event_queue w
  /\ invocations w' = invocations w
  /\ dict_keys (sub_agents w') = dict_keys (sub_agents w).
Proof.
  cbv zeta. destruct (dict_get n (sub_agents w)) as [a|] eqn:Ha.
  - destruct (_card a) as [d0|] eqn:Hd.
    + rewrite (get_card_cached env gac n w a d0 Ha Hd). auto.
    + rewrite (get_card_fetch env gac n w a Ha Hd).
      pose proof (get_client_frame env n w) as (Hq & Hi & Hk).
      destruct (get_client env n w) as [[c|e] w0] eqn:Hg; simpl in *; auto.
      destruct (gac c) as [d0|e]; simpl; auto.
      repeat split; auto. rewrite <- Hk.
      apply dict_keys_set_present.
      rewrite (get_client_agent env n w w0 a c Ha Hg). discriminate.
  - unfold get_card, bind, the_agent. rewrite Ha. simpl. auto.
Qed.

Lemma descriptions_loop_frame (env : Env)
  (gac : A2AClient -> outcome string) (names : list string) :
  forall (ds : dict string) (w : world),
    let w' := snd (descriptions_loop env gac names ds w) in
    event_queue w' = event_queue w /\ invocations w' = invocations w.
Proof.
  induction names as [|n rest IH]; intros ds w; cbv zeta.
  - simpl. auto.
  - cbn [descriptions_loop]. unfold bind.
    pose proof (get_card_frame env gac n w) as (Hq & Hi & _).
    destruct (get_card env gac n w) as [[d|e] w1]; simpl in *; auto.
    destruct (IH (dict_set n d ds) w1) as [Hq' Hi']. cbv zeta in Hq', Hi'.
    rewrite Hq', Hi'. auto.
Qed.

(** X14. [LLMOrchestratorExecutor.execute] does not absorb exceptions: when
    fetching the agent descriptions raises, the exception leaves [execute]
    and nothing at all is put into the queue, not even a FAILED status;
    otherwise the run puts exactly two events into the queue, the
    "not yet implemented" text and the COMPLETED status "Done!".  In no
    case is a task sent to a sub-agent. *)
Theorem LLM_execute_lets_exceptions_escape (env : Env)
  (gac : A2AClient -> outcome string) (msg : string) (w : world) :
  let run := LLMOrchestratorExecutor_execute env gac msg w in
  invocations (snd run) = invocations w
  /\ match fst (_get_agent_descriptions env gac w) with
     | Raise e => fst run = Raise e /\ event_queue (snd run) = event_queue w
     | Return _ =>
         fst run = Return tt
         /\ event_queue (snd run)
            = event_queue w
                ++ [AgentExecutionTextEvent
                      "LLM-based orchestration not yet implemented. See code for examples."
                      None;
                    AgentExecutionStateEvent COMPLETED "Done!"]
     end.
Proof.
  cbv zeta. unfold LLMOrchestratorExecutor_execute, bind.
  unfold _get_agent_descriptions.
  destruct (descriptions_loop_frame env gac (dict_keys (sub_agents w)) [] w)
    as [Hq Hi].
  cbv zeta in Hq, Hi.
  destruct (descriptions_loop env gac (dict_keys (sub_agents w)) [] w)
    as [[ds|e] w1]; simpl in *.
  - rewrite Hi, Hq, <- app_assoc. auto.
  - auto.
Qed.

(** ** The descriptions of the agents *)

Lemma card_of_stable (w w' : world) (n d : string) :
  evolves w w' -> card_of w n = Some d -> card_of w' n = Some d.
Proof.
  intros (_ & Ha & _) H. unfold card_of in *.
  destruct (dict_get n (sub_agents w)) as [a|] eqn:E; [|discriminate].
  destruct (Ha n a E) as (a' & -> & _ & _ & _ & Hd). auto.
Qed.

(** [get_card] never replaces a card that an agent holds. *)
Lemma get_card_keeps_cards (env : Env) (gac : A2AClient -> outcome string)
  (m : string) (w : world) (n d : string) :
  card_of w n = Some d ->
  card_of (snd (get_card env gac m w)) n = Some d.
Proof.
  intros Hn. destruct (dict_get m (sub_agents w)) as [a|] eqn:Ha.
  - destruct (_card a) as [d0|] eqn:Hd.
    + now rewrite (get_card_cached env gac m w a d0 Ha Hd).
    + rewrite (get_card_fetch env gac m w a Ha Hd).
      pose proof (preserves_get_client env m w) as Hev.
      destruct (get_client env m w) as [[c|e] w0]; simpl in *;
        [|eapply card_of_stable; eauto].
      pose proof (card_of_stable w w0 n d Hev Hn) as Hn0.
      destruct (gac c) as [d0|e]; simpl; [|exact Hn0].
      unfold card_of in *; simpl.
      destruct (String.eqb n m) eqn:E.
      * apply String.eqb_eq in E. subst n. rewrite Ha in Hn. congruence.
      * apply String.eqb_neq in E. now rewrite dict_get_set_other.
  - unfold get_card, bind, the_agent. rewrite Ha. simpl. exact Hn.
Qed.

Lemma descriptions_loop_keys (env : Env)
  (gac : A2AClient -> outcome string) (names : list string) :
  forall (ds : dict string) (w : world),
    dict_keys (sub_agents (snd (descriptions_loop env gac names ds w)))
    = dict_keys (sub_agents w).
Proof.
  induction names as [|n rest IH]; intros ds w; [reflexivity|].
  cbn [descriptions_loop]. unfold bind.
  pose proof (get_card_frame env gac n w) as (_ & _ & Hk).
  destruct (get_card env gac n w) as [[d|e] w1]; simpl in *; auto.
  now rewrite IH.
Qed.

(** A loop that returned has left a card with every agent, and its result
    is read off these cards. *)
Lemma descriptions_loop_result (env : Env)
  (gac : A2AClient -> outcome string) (names : list string) :
  forall (ds : dict string) (w : world) (r : dict string),
    fst (descriptions_loop env gac names ds w) = Return r ->
    let w' := snd (descriptions_loop env gac names ds w) in
    r = descriptions_of w' names ds
    /\ (forall n, In n names -> card_of w' n <> None)
    /\ (forall n d, card_of w n = Some d -> card_of w' n = Some d).
Proof.
  induction names as [|n rest IH]; intros ds w r; cbv zeta.
  - simpl. unfold ret; simpl. intros H; inversion H.
    split; [reflexivity|]. split; [intros n []|auto].
  - cbn [descriptions_loop]. unfold bind.
    pose proof (get_card_stored env gac n w) as Hst.
    pose proof (get_card_keeps_cards env gac n w) as Hkeep.
    destruct (get_card env gac n w) as [[d|e] w1]; simpl in Hkeep;
      [|discriminate].
    destruct (Hst w1 d eq_refl) as (a & Ha & Hd).
    intros Hr. destruct (IH (dict_set n d ds) w1 r Hr) as (-> & Hall & Hstab).
    cbv zeta in Hall, Hstab.
    set (w' := snd (descriptions_loop env gac rest (dict_set n d ds) w1))
      in *.
    assert (Hn : card_of w' n = Some d).
    { apply Hstab. unfold card_of. now rewrite Ha. }
    split; [|split].
    + unfold descriptions_of. simpl. now rewrite Hn.
    + intros m [<-|Hm]; [congruence | auto].
    + intros m d0 Hm. auto.
Qed.

(** When every agent holds a card, the loop fetches nothing. *)
Lemma descriptions_loop_cached (env : Env)
  (gac : A2AClient -> outcome string) (names : list string) :
  forall (ds : dict string) (w : world),
    (forall n, In n names -> card_of w n <> None) ->
    descriptions_loop env gac names ds w
    = (Return (descriptions_of w names ds), w).
Proof.
  induction names as [|n rest IH]; intros ds w Hall; [reflexivity|].
  cbn [descriptions_loop]. unfold bind.
  assert (Hn : card_of w n <> None) by (apply Hall; now left).
  destruct (card_of w n) as [d|] eqn:Hc; [|congruence].
  assert (Hd : exists a, dict_get n (sub_agents w) = Some a
                         /\ _card a = Some d).
  { unfold card_of in Hc.
    destruct (dict_get n (sub_agents w)) as [a|]; [eauto | discriminate]. }
  destruct Hd as (a & Ha & Hd).
  rewrite (get_card_cached env gac n w a d Ha Hd).
  rewrite IH by (intros m Hm; apply Hall; now right).
  unfold descriptions_of. cbn [fold_left]. now rewrite Hc.
Qed.

Lemma descriptions_of_fresh (w : world) (names : list string) :
  forall done : dict string,
    NoDup (dict_keys done ++ names) ->
    descriptions_of w names done
    = done ++ map (fun n => (n, match card_of w n with
                                | Some d => d
                                | None => ""%string
                                end)) names.
Proof.
  unfold descriptions_of.
  induction names as [|n rest IH]; intros done Hnd; simpl.
  - now rewrite app_nil_r.
  - rewrite dict_set_absent.
    + rewrite IH.
      * now rewrite <- app_assoc.
      * unfold dict_keys in *. rewrite map_app, <- app_assoc. exact Hnd.
    + apply NoDup_remove_2 in Hnd. intros Hin. apply Hnd.
      apply in_or_app. now left.
Qed.

(** X16. [_get_agent_descriptions] maps, in the configured order, every
    configured name to the description on the card its agent holds
    afterwards; it touches neither the queue nor the call log; and since
    every agent then holds its card, asking again returns the same
    dictionary without fetching anything, whatever the remote agents would
    now answer. *)
Theorem get_agent_descriptions_from_cards (env env' : Env)
  (gac gac' : A2AClient -> outcome string) (w w1 : world)
  (ds : dict string) :
  NoDup (dict_keys (sub_agents w)) ->
  _get_agent_descriptions env gac w = (Return ds, w1) ->
  Forall2 (fun n item => fst item = n /\ card_of w1 n = Some (snd item))
          (dict_keys (sub_agents w)) ds
  /\ event_queue w1 = event_queue w
  /\ invocations w1 = invocations w
  /\ _get_agent_descriptions env' gac' w1 = (Return ds, w1).
Proof.
  intros Hnd H. unfold _get_agent_descriptions in *.
  set (names := dict_keys (sub_agents w)) in *.
  pose proof (descriptions_loop_result env gac names [] w ds) as Hres.
  pose proof (descriptions_loop_frame env gac names [] w) as Hfr.
  pose proof (descriptions_loop_keys env gac names [] w) as Hk.
  rewrite H in Hres, Hfr, Hk. cbv zeta in Hres, Hfr. simpl in Hres, Hfr, Hk.
  destruct (Hres eq_refl) as (Hds & Hall & _). destruct Hfr as [Hq Hi].
  rewrite (descriptions_of_fresh w1 names []) in Hds by exact Hnd.
  simpl in Hds.
  split; [|split; [exact Hq|split; [exact Hi|]]].
  - subst ds. clear - Hall.
    induction names as [|n rest IH]; simpl; constructor.
    + split; [reflexivity|]. simpl.
      assert (Hn : card_of w1 n <> None) by (apply Hall; now left).
      destruct (card_of w1 n); [reflexivity | congruence].
    + apply IH. intros m Hm. apply Hall. now right.
  - rewrite Hk. fold names.
    rewrite descriptions_loop_cached by exact Hall.
    rewrite (descriptions_of_fresh w1 names []) by exact Hnd.
    simpl. now rewrite Hds.
Qed.

(** ** The further properties at work on the example configurations *)


(** C4 (amended) at work: agent_2 and agent_3 both fail; both errors are
    listed. *)
Example parallel_two_failures :
  let r :=
    execute_with (_parallel_orchestration env_broken [2; 1; 0; 0; 1]) "task"
      (initial_world main_urls) in
  fst r = Return tt
  /\ event_queue (snd r) =
       [thinking_event;
        parallel_event;
        AgentExecutionStateEvent THINKING "Processing your request...";
        AgentExecutionStateEvent THINKING "Processing your request...";
        AgentExecutionStateEvent THINKING "Processing your request...";
        AgentExecutionTextEvent "42" (Some false);
        AgentExecutionStateEvent COMPLETED "Task completed successfully!";
        AgentExecutionStateEvent FAILED
          "Orchestration failed: Some agents failed: [ConnectionError('agent_2 hung up'), ConnectionError('agent_3 hung up')]"]
  /\ invocations (snd r) =
       [(mkClient 0 "http://localhost:10001",
         "task (handled by agent_1)"%string);
        (mkClient 1 "http://localhost:10002",
         "task (handled by agent_2)"%string);
        (mkClient 2 "http://localhost:10003",
         "task (handled by agent_3)"%string)].
Proof. vm_compute. auto. Qed.

(** Agents whose client cannot be constructed hold no client after the
    run and make no call; their exceptions are the errors collected. *)
Example parallel_unreachable_agents :
  let run :=
    _parallel_orchestration env_unreachable [] "task"
      (initial_world main_urls) in
  fst run =
    Raise (Exception
             "Some agents failed: [ConnectionError('unreachable'), ConnectionError('unreachable'), ConnectionError('unreachable')]")
  /\ invocations (snd run) = []
  /\ map (fun n => client_of (snd run) n) ["agent_1"; "agent_2"; "agent_3"]
     = [None; None; None].
Proof. vm_compute. auto. Qed.


(** X3 at work: agent_2's stream breaks, agent_3 is never called. *)
Lemma sequential_stops_at_first_failure_witness :
  let w := initial_world main_urls in
  let run :=
    _sequential_orchestration env_broken OrchestratorExecutor_methods
      "task" w in
  let names := dict_keys (sub_agents w) in
  let invs :=
    [(mkClient 0 "http://localhost:10001", "task"%string);
     (mkClient 1 "http://localhost:10002", "task"%string)] in
  Forall (completed env_broken) (removelast invs)
  /\ length invs <= length names
  /\ (forall answer,
        fst run = Return answer ->
        Forall (completed env_broken) invs /\ length invs = length names)
  /\ (forall e,
        fst run = Raise e ->
        (exists invs' c i,
           invs = invs' ++ [(c, i)]
           /\ snd (client_execute_task env_broken c i) = Some e)
        \/ (exists n a,
              nth_error names (length invs) = Some n
              /\ dict_get n (sub_agents (snd run)) = Some a
              /\ _client a = None
              /\ A2AClient_init env_broken (url a) = Some e)).
Proof.
  intros w run names invs.
  apply (sequential_stops_at_first_failure env_broken
           OrchestratorExecutor_methods "task" w invs).
  vm_compute. reflexivity.
Defined.

(** X4 at work on the same run. *)
Lemma sequential_stream_is_blocks_witness :
  let w := initial_world main_urls in
  let run :=
    _sequential_orchestration env_broken OrchestratorExecutor_methods
      "task" w in
  let invs :=
    [(mkClient 0 "http://localhost:10001", "task"%string);
     (mkClient 1 "http://localhost:10002", "task"%string)] in
  event_queue (snd run)
  = event_queue w
      ++ concat (map (delegation_block env_broken w)
                     (combine (dict_keys (sub_agents w)) invs)).
Proof.
  intros w run invs.
  apply (sequential_stream_is_blocks env_broken OrchestratorExecutor_methods
           "task" w invs).
  - intros u. reflexivity.
  - vm_compute. reflexivity.
Defined.

(** X5 at work: the second call goes to agent_2 at its URL. *)
Lemma sequential_calls_agents_at_their_urls_witness :
  let w := initial_world main_urls in
  let run :=
    _sequential_orchestration env_simple OrchestratorExecutor_methods
      "task" w in
  let c := mkClient 1 "http://localhost:10002" in
  exists n a,
    nth_error (dict_keys (sub_agents w)) 1 = Some n
    /\ dict_get n (sub_agents w) = Some a
    /\ client_of (snd run) n = Some c
    /\ client_url c = url a.
Proof.
  intros w run c.
  apply (sequential_calls_agents_at_their_urls env_simple
           OrchestratorExecutor_methods "task" w
           (invocations (snd run)) 1 c "task").
  - apply clients_ok_initial.
  - vm_compute. reflexivity.
  - vm_compute. reflexivity.
Defined.

(** X6 at work: after a first run the agents cannot be reached any more,
    yet the second run needs no new client. *)
Lemma second_sequential_run_reuses_clients_witness :
  let w := initial_world main_urls in
  let w1 :=
    snd (_sequential_orchestration env_simple OrchestratorExecutor_methods
           "task" w) in
  let run2 :=
    _sequential_orchestration env_unreachable advanced_methods
      "another task" w1 in
  sub_agents (snd run2) = sub_agents w1
  /\ clients_made (snd run2) = clients_made w1
  /\ forall invs N c i,
       invocations (snd run2) = invocations w1 ++ invs ->
       nth_error invs N = Some (c, i) ->
       exists n, nth_error (dict_keys (sub_agents w)) N = Some n
                 /\ client_of w1 n = Some c.
Proof.
  intros w w1 run2.
  apply (second_sequential_run_reuses_clients env_simple env_unreachable
           OrchestratorExecutor_methods advanced_methods "task"
           "another task" w
           "Orchestration completed. Agents executed: agent_1, agent_2, agent_3").
  vm_compute. reflexivity.
Defined.

Example unreachable_agents_fail_a_first_run :
  fst (_sequential_orchestration env_unreachable OrchestratorExecutor_methods
         "task" (initial_world main_urls))
  = Raise (Raised "unreachable" "ConnectionError('unreachable')").
Proof. vm_compute. reflexivity. Qed.

(** X7 at work: with the default stopping predicate the selection
    agent_2, ghost, agent_1, agent_2 runs agent_2 only. *)
Lemma conditional_runs_prefix_of_selection_witness :
  let self :=
    mkMethods _build_instruction_for_agent select_some
              _should_stop_execution _is_result_satisfactory
              _synthesize_results in
  let w := initial_world main_urls in
  let sel := configured_selection w (select_some (sub_agents w) "task") in
  let invs := [(mkClient 0 "http://localhost:10002", "task"%string)] in
  exists k,
    "Executed agents: agent_2"%string
    = ("Executed agents: " ++ join ", " (firstn k sel))%string
    /\ k <= length sel
    /\ length invs = k
    /\ Forall (completed env_simple) invs
    /\ (k = length sel
        \/ (0 < k /\ should_stop_execution self (firstn k sel) = true))
    /\ forall j,
         0 < j < k -> should_stop_execution self (firstn j sel) = false.
Proof.
  intros self w sel invs.
  apply (conditional_runs_prefix_of_selection env_simple self "task" w
           "Executed agents: agent_2" invs).
  - vm_compute. reflexivity.
  - vm_compute. reflexivity.
Defined.

(** X8 at work: the same selection with a stopping predicate that is never
    true runs agent_2, agent_1 and agent_2 again, and skips ghost. *)
Lemma conditional_runs_whole_selection_witness :
  let w := initial_world main_urls in
  let run :=
    _conditional_orchestration env_simple routing_some_methods "task" w in
  fst run = Return "Executed agents: agent_2, agent_1, agent_2"%string
  /\ exists invs,
       invocations (snd run) = invocations w ++ invs
       /\ length invs = 3.
Proof.
  intros w run.
  apply (conditional_runs_whole_selection env_simple routing_some_methods
           "task" w).
  - split; reflexivity.
  - intros l. reflexivity.
Defined.

(** X10 at work: agent_2 and agent_3 fail, all three agents are called. *)
Lemma parallel_calls_every_agent_witness :
  let w := initial_world main_urls in
  exists invs,
    invocations (snd (_parallel_orchestration env_broken [1; 0; 2] "task" w))
    = invocations w ++ invs
    /\ map snd invs
       = ["task (handled by agent_1)"; "task (handled by agent_2)";
          "task (handled by agent_3)"]%string.
Proof.
  intros w.
  apply (parallel_calls_every_agent env_broken [1; 0; 2] "task" w).
  intros u. reflexivity.
Defined.

(** X11 at work. *)
Lemma parallel_succeeds_when_all_complete_witness :
  fst (_parallel_orchestration env_simple [2; 2; 0; 1] "task"
         (initial_world main_urls))
  = Return "All agents completed successfully in parallel!"%string.
Proof.
  apply (parallel_succeeds_when_all_complete env_simple [2; 2; 0; 1] "task"
           (initial_world main_urls)).
  split; reflexivity.
Defined.

(** X12 at work: the card fetched first is returned again when the agent
    refuses to send one. *)
Lemma get_card_memoized_witness :
  let w1 :=
    snd (get_card env_simple card_sent "agent_1" (initial_world main_urls)) in
  get_card env_unreachable card_refused "agent_1" w1
  = (Return "Card of http://localhost:10001"%string, w1).
Proof.
  intros w1.
  apply (get_card_memoized env_simple env_unreachable card_sent card_refused
           "agent_1" (initial_world main_urls) w1).
  vm_compute. reflexivity.
Defined.

(** X13 at work: the card is refused, then sent, through client 0. *)
Lemma get_card_failure_is_retried_witness :
  let w := initial_world main_urls in
  let c := mkClient 0 "http://localhost:10001" in
  let w0 := snd (get_client env_simple "agent_1" w) in
  get_card env_simple card_refused "agent_1" w
  = (Raise (Raised "no card" "CardError('no card')"), w0)
  /\ client_of w0 "agent_1" = Some c
  /\ fst (get_card env_unreachable card_sent "agent_1" w0) = card_sent c
  /\ clients_made (snd (get_card env_unreachable card_sent "agent_1" w0))
     = clients_made w0.
Proof.
  intros w c w0.
  apply (get_card_failure_is_retried env_simple env_unreachable card_refused
           card_sent "agent_1" w w0
           (SubAgent_init "agent_1" "http://localhost:10001") c
           (Raised "no card" "CardError('no card')"));
    reflexivity.
Defined.

(** X14: a refused card makes the LLM-powered [execute] raise and leaves
    the queue empty; sent cards give the two events. *)
Example LLM_execute_raises_on_refused_card :
  let run :=
    LLMOrchestratorExecutor_execute env_simple card_refused "task"
      (initial_world main_urls) in
  fst run = Raise (Raised "no card" "CardError('no card')")
  /\ event_queue (snd run) = [].
Proof. vm_compute. auto. Qed.

Example LLM_execute_with_cards :
  let run :=
    LLMOrchestratorExecutor_execute env_simple card_sent "task"
      (initial_world main_urls) in
  fst run = Return tt
  /\ event_queue (snd run)
     = [AgentExecutionTextEvent
          "LLM-based orchestration not yet implemented. See code for examples."
          None;
        AgentExecutionStateEvent COMPLETED "Done!"]
  /\ clients_made (snd run) = 3.
Proof. vm_compute. auto. Qed.

(** X16 at work: the descriptions of the three agents, asked for again
    when no agent sends its card any more. *)
Lemma get_agent_descriptions_from_cards_witness :
  let w := initial_world main_urls in
  let ds :=
    [("agent_1", "Card of http://localhost:10001");
     ("agent_2", "Card of http://localhost:10002");
     ("agent_3", "Card of http://localhost:10003")]%string in
  let w1 := snd (_get_agent_descriptions env_simple card_sent w) in
  Forall2 (fun n item => fst item = n /\ card_of w1 n = Some (snd item))
          (dict_keys (sub_agents w)) ds
  /\ event_queue w1 = event_queue w
  /\ invocations w1 = invocations w
  /\ _get_agent_descriptions env_unreachable card_refused w1
     = (Return ds, w1).
Proof.
  intros w ds w1.
  apply (get_agent_descriptions_from_cards env_simple env_unreachable
           card_sent card_refused w w1 ds).
  - simpl. repeat constructor; simpl; intuition discriminate.
  - vm_compute. reflexivity.
Defined.

(** X2 at work: four tasks, one per pattern, and still three clients. *)
Example four_runs_three_clients :
  clients_made
    (after_runs env_broken OrchestratorExecutor_methods
       [(Sequential, "a"); (Parallel [1; 0], "b"); (Conditional, "c");
        (Iterative, "d")]%string
       (initial_world main_urls)) = 3.
Proof. vm_compute. reflexivity. Qed.
